(** * CSVLengthIndicated: the length-indicated record format

    A shallow embedding of [src/CSVLengthIndicated.cpp]: the encoder
    [convertCSVToLengthIndicated], which turns every line of a text file
    into a [size_t] length field followed by the bytes of the line, and the
    decoder [readLengthIndicatedRecord], which reads one such record from a
    binary input stream.

    The embedding keeps the parts of the C++ stream library the two
    functions go through: the [iostate] flags of a stream, [istream::read],
    [std::getline], [ostream::write], and the opening of an [ifstream] and
    of an [ofstream] (which truncates).  Text mode is the identity on bytes,
    as on POSIX systems.  The decoder builds a [std::string] of a length
    it read or never set, so the constructor's two exceptions are part of
    its model: [std::length_error] above [max_size()] and
    [std::bad_alloc] above what the free store gives.  The strings of
    the encoder are the lines [std::getline] delivers; [std::streamsize]
    holds every byte count that is passed to [read] and [write]. *)

From Stdlib Require Import NArith Ascii String List Lia.
From stdpp Require Import base gmap strings list.

Local Open Scope nat_scope.

(** A byte is a [char]; a [std::string] and the contents of a file are
    lists of bytes.  Paths are Rocq strings. *)
Abbreviation byte := ascii.

Definition newline : byte := "010"%char.
Definition nul : byte := "000"%char.

(** ** Object representation of [size_t] *)

(** The [w] low-order base-256 digits of [n], least significant first:
    storing a value in a [w]-byte unsigned object keeps it modulo
    [256 ^ w]. *)
Fixpoint le_bytes (w : nat) (n : N) : list byte :=
  match w with
  | O => []
  | S w' => ascii_of_N (n mod 256) :: le_bytes w' (n / 256)
  end.

Fixpoint le_value (bs : list byte) : N :=
  match bs with
  | [] => 0%N
  | b :: bs' => (N_of_ascii b + 256 * le_value bs')%N
  end.

(** ** Stream state *)

Record iostate := mk_iostate { eofbit : bool; failbit : bool; badbit : bool }.

Definition goodbit : iostate := mk_iostate false false false.

Definition ios_or (a b : iostate) : iostate :=
  mk_iostate (eofbit a || eofbit b) (failbit a || failbit b)
             (badbit a || badbit b).

(** An input file stream: the bytes of the file, the get position, the
    state flags and the count of the last unformatted read. *)
Record ifstream := mk_ifstream {
  content : list byte;
  gpos : nat;
  rdstate : iostate;
  gcount : nat
}.

Definition unread (s : ifstream) : list byte := drop (gpos s) (content s).

Definition good (s : ifstream) : bool :=
  negb (eofbit (rdstate s) || failbit (rdstate s) || badbit (rdstate s)).

Definition fail (s : ifstream) : bool :=
  failbit (rdstate s) || badbit (rdstate s).

Definition eof (s : ifstream) : bool := eofbit (rdstate s).

Definition setstate (s : ifstream) (f : iostate) : ifstream :=
  mk_ifstream (content s) (gpos s) (ios_or (rdstate s) f) (gcount s).

Definition ifstream_of (bs : list byte) : ifstream :=
  mk_ifstream bs 0 goodbit 0.

(** [is.read(buf, n)], with [buf] the current bytes of the destination.
    The count is reset, then the sentry is built: a stream that is not
    [good] only gets [failbit] and nothing is stored.  Otherwise up to [n]
    bytes are taken; they overwrite the front of the destination, the rest
    of which keeps what it held.  Fewer than [n] bytes set
    [eofbit | failbit]. *)
Definition istream_read (s : ifstream) (buf : list byte) (n : nat)
  : list byte * ifstream :=
  if good s then
    let got := take n (unread s) in
    let k := length got in
    let s' := mk_ifstream (content s) (gpos s + k) (rdstate s) k in
    (got ++ drop k buf,
     if k =? n then s' else setstate s' (mk_iostate true true false))
  else
    (buf, setstate (mk_ifstream (content s) (gpos s) (rdstate s) 0)
                   (mk_iostate false true false)).

(** The extraction loop of [std::getline]: the bytes before the first
    newline, how many bytes were extracted (the newline is extracted and
    dropped), and whether the end of the file stopped the scan. *)
Fixpoint scan_line (bs : list byte) : list byte * nat * bool :=
  match bs with
  | [] => ([], 0, true)
  | c :: rest =>
      if Ascii.eqb c newline then ([], 1, false)
      else let '(l, n, e) := scan_line rest in (c :: l, S n, e)
  end.

(** [std::getline(is, str)].  When the sentry fails [str] is left as it
    was and [failbit] is set.  Otherwise [str] is erased and filled;
    reaching the end of the file sets [eofbit], and extracting nothing
    sets [failbit].  [gcount] is not touched. *)
Definition getline (s : ifstream) (str : list byte) : ifstream * list byte :=
  if good s then
    let '(l, n, e) := scan_line (unread s) in
    (setstate (mk_ifstream (content s) (gpos s + n) (rdstate s) (gcount s))
              (mk_iostate e (n =? 0) false),
     l)
  else
    (setstate s (mk_iostate false true false), str).

(** ** Results of a call that may throw *)

Inductive exception := length_error | bad_alloc.

(** A call either returns a string or leaves by an exception; in both
    cases the stream, passed by reference, is in the caller's hands. *)
Inductive call_result :=
| Returns (record : list byte) (s : ifstream)
| Throws (e : exception) (s : ifstream).

Definition stream_of (r : call_result) : ifstream :=
  match r with
  | Returns _ s => s
  | Throws _ s => s
  end.

(** How a loop over calls ends: the stream failed, or an exception left
    the loop; in both cases with the strings collected before. *)
Inductive loop_result :=
| Finished (records : list (list byte)) (s : ifstream)
| Aborted (e : exception) (records : list (list byte)) (s : ifstream).

(** ** Files *)

Record file := mk_file {
  bytes : list byte;
  may_read : bool;
  may_write : bool
}.

(** The part of the machine the encoder touches: the files by path,
    whether a path that does not exist may be created, and what was sent
    to [std::cerr]. *)
Record world := mk_world {
  files : gmap string file;
  may_create : string -> bool;
  cerr : list string
}.

Definition file_bytes (w : world) (path : string) : list byte :=
  match files w !! path with
  | Some f => bytes f
  | None => []
  end.

(** [std::ifstream in(path)]: the result of [is_open()]. *)
Definition ifstream_open (w : world) (path : string) : bool :=
  match files w !! path with
  | Some f => may_read f
  | None => false
  end.

Definition store (w : world) (path : string) (f : file) : world :=
  mk_world (<[path := f]> (files w)) (may_create w) (cerr w).

(** [std::ofstream out(path, std::ios::binary)]: the mode is
    [out | trunc], so a successful open empties an existing file and
    creates a missing one.  Returns [is_open()] and the new world. *)
Definition ofstream_open (w : world) (path : string) : bool * world :=
  match files w !! path with
  | Some f =>
      if may_write f
      then (true, store w path (mk_file [] (may_read f) (may_write f)))
      else (false, w)
  | None =>
      if may_create w path
      then (true, store w path (mk_file [] true true))
      else (false, w)
  end.

(** The bytes written through an open [ofstream] reach the file at the
    latest when it is closed. *)
Definition ofstream_close (w : world) (path : string) (written : list byte)
  : world :=
  match files w !! path with
  | Some f => store w path (mk_file written (may_read f) (may_write f))
  | None => w
  end.

Definition cerr_put (w : world) (msg : string) : world :=
  mk_world (files w) (may_create w) (cerr w ++ [msg]).

Definition open_error : string := "Error opening file!".

(** The line of C5: the five bytes [a , b , c]. *)
Definition abc_line : list byte := list_ascii_of_string "a,b,c".

(** A small machine for the examples: four text files, a binary file
    left by an earlier run, and a binary file that may not be written. *)
Definition example_world : world :=
  mk_world
    {[ "in.csv"%string :=
         mk_file (abc_line ++ [newline; newline]
                  ++ list_ascii_of_string "x,y") true true;
       "in_nl.csv"%string :=
         mk_file (abc_line ++ [newline; newline]
                  ++ list_ascii_of_string "x,y" ++ [newline]) true true;
       "abc.csv"%string := mk_file (abc_line ++ [newline]) true true;
       "empty.csv"%string := mk_file [] true true;
       "old.bin"%string := mk_file (list_ascii_of_string "old") true true;
       "locked.bin"%string :=
         mk_file (list_ascii_of_string "old") true false ]}
    (fun _ => true) [].

(** A length field of eight bytes holding 5, low byte first, followed by
    only two bytes. *)
Definition truncated_bytes : list byte :=
  ["005"; "000"; "000"; "000"; "000"; "000"; "000"; "000"; "a"; "b"]%char.

(** The same length field followed by nothing. *)
Definition length_field_only : list byte :=
  ["005"; "000"; "000"; "000"; "000"; "000"; "000"; "000"]%char.

(** A length field holding 2, its two bytes and the start of the next
    record. *)
Definition well_formed_bytes : list byte :=
  ["002"; "000"; "000"; "000"; "000"; "000"; "000"; "000"; "a"; "b";
   "001"; "000"]%char.

(** More files for the examples: a text of three blank lines, and the
    text of [abc.csv] followed by the text of [in.csv]. *)
Definition second_world : world :=
  mk_world
    {[ "blank.csv"%string := mk_file [newline; newline; newline] true true;
       "both.csv"%string :=
         mk_file ((abc_line ++ [newline])
                  ++ (abc_line ++ [newline; newline]
                      ++ list_ascii_of_string "x,y")) true true ]}
    (fun _ => true) [].

(** The library and free store of the examples: the [max_size()] of a
    string with an eight-byte [size_t], and a free store of one
    gibibyte.  [all_ones] is an uninitialised [size_t] with every bit
    set. *)
Definition example_max_size : N := 4611686018427387903.
Definition example_heap : N := 1073741824.
Definition all_ones : N := 18446744073709551615.

(** A stream over three bytes that already met the end of its file. *)
Definition failed_stream : ifstream :=
  mk_ifstream (list_ascii_of_string "abc") 3 (mk_iostate true true false) 0.

Section Platform.

(** The platform: the width of [size_t] in bytes and the byte order of
    objects in memory. *)
Variable sizeof_size_t : nat.
Variable big_endian : bool.

(** The library and the free store: [std::string::max_size()], and the
    length of the longest string the allocator grants when the decoder
    asks (never less than what the string holds without allocation). *)
Variable max_size : N.
Variable heap : N.

Definition size_t_modulus : N := (256 ^ N.of_nat sizeof_size_t)%N.

(** Conversion of a number to [size_t]. *)
Definition to_size_t (n : N) : N := (n mod size_t_modulus)%N.

(** The bytes of a [size_t] object holding [n], as
    [reinterpret_cast<const char *>(&n)] shows them, and the value of a
    [size_t] object made of the bytes [bs]. *)
Definition size_t_bytes (n : N) : list byte :=
  let le := le_bytes sizeof_size_t n in
  if big_endian then rev le else le.

Definition size_t_value (bs : list byte) : N :=
  le_value (if big_endian then rev bs else bs).

(** [out.write(p, n)] on the bytes written so far. *)
Definition ostream_write (out : list byte) (p : list byte) (n : nat)
  : list byte :=
  out ++ take n p.

(** ** The encoder *)

(** [while (getline(inputFile, line)) { ... }].  The result is the input
    stream, the variable [line] and the bytes written when the loop is
    left; [None] when [fuel] turns of the loop were not enough. *)
Fixpoint convert_loop (fuel : nat) (inputFile : ifstream) (line : list byte)
    (out : list byte) : option (ifstream * list byte * list byte) :=
  match fuel with
  | O => None
  | S fuel' =>
      let '(inputFile', line') := getline inputFile line in
      if fail inputFile' then Some (inputFile', line', out)
      else
        let recordLength := to_size_t (N.of_nat (length line')) in
        let out1 :=
          ostream_write out (size_t_bytes recordLength) sizeof_size_t in
        let out2 := ostream_write out1 line' (N.to_nat recordLength) in
        convert_loop fuel' inputFile' line' out2
  end.

(** Both streams are constructed before the test, so the output file is
    already truncated when the input turns out not to open.  The input
    stream fetches its bytes at the first [getline], after the output was
    opened.  On the early return the destructors close the streams and
    nothing was written. *)
Definition convertCSVToLengthIndicated (fuel : nat) (w : world)
    (csvFile outputFile : string) : option world :=
  let inputFile_is_open := ifstream_open w csvFile in
  let '(outputFileStream_is_open, w1) := ofstream_open w outputFile in
  if negb inputFile_is_open || negb outputFileStream_is_open then
    Some (cerr_put w1 open_error)
  else
    match convert_loop fuel (ifstream_of (file_bytes w1 csvFile)) [] [] with
    | Some (_, _, written) => Some (ofstream_close w1 outputFile written)
    | None => None
    end.

(** ** The decoder *)

(** [std::string(n, c)]: the length is checked against [max_size()]
    before the storage is asked for. *)
Definition string_fill (n : N) (c : byte) : exception + list byte :=
  if (max_size <? n)%N then inl length_error
  else if (heap <? n)%N then inl bad_alloc
  else inr (replicate (N.to_nat n) c).

(** [recordLength] is not initialised: the object holds some value
    [indeterminate] until [read] overwrites its bytes.  The string is
    built between the two reads, whatever the first read did; when the
    constructor throws, the stream is as the first read left it. *)
Definition readLengthIndicatedRecord (indeterminate : N)
    (fileStream : ifstream) : call_result :=
  let '(repr, fileStream1) :=
    istream_read fileStream (size_t_bytes indeterminate) sizeof_size_t in
  let recordLength := size_t_value repr in
  match string_fill recordLength nul with
  | inl e => Throws e fileStream1
  | inr record =>
      let '(record', fileStream2) :=
        istream_read fileStream1 record (N.to_nat recordLength) in
      Returns record' fileStream2
  end.

(** Modelled from the spec: the caller's loop, which is not part of the
    source file.  The spec (4.2) has the caller call the decoder again and
    again and check the state of the stream after each call; a call that
    leaves the stream failed ends the loop and its string is dropped.
    The loop catches nothing, so an exception of the decoder leaves it.
    [indet k] is the indeterminate value of the [k]-th call. *)
Fixpoint read_all (fuel : nat) (indet : nat -> N) (k : nat) (s : ifstream)
  : option loop_result :=
  match fuel with
  | O => None
  | S fuel' =>
      match readLengthIndicatedRecord (indet k) s with
      | Throws e s' => Some (Aborted e [] s')
      | Returns record s' =>
          if fail s' then Some (Finished [] s')
          else
            match read_all fuel' indet (S k) s' with
            | Some (Finished records s'') =>
                Some (Finished (record :: records) s'')
            | Some (Aborted e records s'') =>
                Some (Aborted e (record :: records) s'')
            | None => None
            end
      end
  end.

(** ** Reference descriptions used in the statements *)

(** A text file holding the lines [ls], each followed by a newline. *)
Fixpoint unlines (ls : list (list byte)) : list byte :=
  match ls with
  | [] => []
  | l :: ls' => l ++ newline :: unlines ls'
  end.

(** One record of the binary format, and a sequence of them. *)
Definition record_of (l : list byte) : list byte :=
  size_t_bytes (N.of_nat (length l)) ++ l.

Fixpoint records_of (ls : list (list byte)) : list byte :=
  match ls with
  | [] => []
  | l :: ls' => record_of l ++ records_of ls'
  end.

Definition fits_size_t (l : list byte) : Prop :=
  (N.of_nat (length l) < size_t_modulus)%N.

Definition no_newline (l : list byte) : Prop := newline ∉ l.

(** A text file holds the lines [ls] when every line is followed by a
    newline, or when only the last one, which is then not empty, lacks
    it. *)
Definition holds_lines (text : list byte) (ls : list (list byte)) : Prop :=
  text = unlines ls ∨
  ∃ init last, ls = init ++ [last] ∧ last ≠ [] ∧ text = unlines init ++ last.

(** What one turn of the encoder's loop appends for the line [l]. *)
Definition written_for (l : list byte) : list byte :=
  let recordLength := to_size_t (N.of_nat (length l)) in
  ostream_write (ostream_write [] (size_t_bytes recordLength) sizeof_size_t)
                l (N.to_nat recordLength).

(** What the loop appends for the lines [ls], in order. *)
Definition written_lines (ls : list (list byte)) : list byte :=
  concat (map written_for ls).

(** A string of [n] bytes can be constructed. *)
Definition constructible (n : N) : Prop :=
  (n <= max_size)%N /\ (n <= heap)%N.

Definition line_constructible (l : list byte) : Prop :=
  constructible (N.of_nat (length l)).

(** What the caller has in hand after a call of the decoder: the
    returned string or the exception, the state flags of the stream and
    the count of the last read. *)
Definition observed (r : call_result)
  : (exception + list byte) * iostate * nat :=
  match r with
  | Returns record s => (inr record, rdstate s, gcount s)
  | Throws e s => (inl e, rdstate s, gcount s)
  end.

(** The claim of C3 as the spec words it: a call on a truncated record
    leaves the caller with something that no call at the end of the
    stream leaves. *)
Definition truncation_reported (indet : N) (s : ifstream) : Prop :=
  forall indet' : N,
    observed (readLengthIndicatedRecord indet s) ≠
    observed (readLengthIndicatedRecord indet' (ifstream_of [])).

(** The claim of C5 as the spec words it, on the bytes of the output
    file. *)
Definition single_record_as_claimed (out : list byte) : Prop :=
  length out = sizeof_size_t + 3 /\
  size_t_value (take sizeof_size_t out) = 3%N /\
  drop sizeof_size_t out = abc_line.

(** ** Properties of the object representation *)

Lemma length_le_bytes (w : nat) (n : N) : length (le_bytes w n) = w.
Proof. revert n; induction w as [|w IH]; intros n; simpl; [done | by rewrite IH]. Qed.

Lemma le_value_le_bytes (w : nat) (n : N) :
  le_value (le_bytes w n) = (n mod 256 ^ N.of_nat w)%N.
Proof.
  revert n; induction w as [|w IH]; intros n.
  - simpl. by rewrite N.mod_1_r.
  - cbn [le_bytes le_value]. rewrite IH, N_ascii_embedding
      by (apply N.mod_lt; lia).
    rewrite Nat2N.inj_succ, N.pow_succ_r'.
    by rewrite N.Div0.mod_mul_r.
Qed.

Lemma le_bytes_mod (w : nat) (n : N) :
  le_bytes w (n mod 256 ^ N.of_nat w) = le_bytes w n.
Proof.
  revert n; induction w as [|w IH]; intros n; [done|].
  cbn [le_bytes]. rewrite Nat2N.inj_succ, N.pow_succ_r'.
  f_equal.
  - f_equal. rewrite N.Div0.mod_mul_r.
    rewrite N.mul_comm, N.Div0.mod_add. apply N.Div0.mod_mod.
  - rewrite <- (IH (n / 256)%N). f_equal.
    rewrite N.Div0.mod_mul_r.
    rewrite N.mul_comm, N.div_add by lia.
    rewrite N.div_small by (apply N.mod_lt; lia). done.
Qed.

Lemma length_size_t_bytes (n : N) : length (size_t_bytes n) = sizeof_size_t.
Proof.
  unfold size_t_bytes. destruct big_endian;
    rewrite ?length_rev; apply length_le_bytes.
Qed.

Lemma size_t_value_bytes (n : N) : size_t_value (size_t_bytes n) = to_size_t n.
Proof.
  unfold size_t_value, size_t_bytes, to_size_t, size_t_modulus.
  destruct big_endian; rewrite ?rev_involutive; apply le_value_le_bytes.
Qed.

Lemma size_t_bytes_to_size_t (n : N) :
  size_t_bytes (to_size_t n) = size_t_bytes n.
Proof.
  unfold size_t_bytes, to_size_t, size_t_modulus.
  by rewrite le_bytes_mod.
Qed.

Lemma to_size_t_fits (n : N) : (n < size_t_modulus)%N -> to_size_t n = n.
Proof. intros H. unfold to_size_t. by apply N.mod_small. Qed.

Lemma written_for_fits (l : list byte) :
  fits_size_t l -> written_for l = record_of l.
Proof.
  intros H. unfold written_for, record_of, ostream_write.
  rewrite (to_size_t_fits _ H), Nat2N.id. simpl.
  rewrite <- (length_size_t_bytes (N.of_nat (length l))) at 1.
  by rewrite !firstn_all.
Qed.

(** ** Properties of the stream operations *)

Lemma no_newline_check (l : list byte) :
  forallb (fun c => negb (Ascii.eqb c newline)) l = true -> no_newline l.
Proof.
  unfold no_newline. induction l as [|c l IH]; simpl; intros H.
  - apply not_elem_of_nil.
  - apply andb_prop in H as [Hc Hl]. apply not_elem_of_cons.
    split; [|by apply IH].
    intros E. rewrite <- E in Hc. by rewrite Ascii.eqb_refl in Hc.
Qed.

Lemma scan_line_terminated (l rest : list byte) :
  no_newline l ->
  scan_line (l ++ newline :: rest) = (l, S (length l), false).
Proof.
  unfold no_newline. induction l as [|c l IH]; intros Hl; simpl.
  - done.
  - apply not_elem_of_cons in Hl as [Hc Hl].
    destruct (Ascii.eqb_spec c newline) as [->|_]; [done|].
    by rewrite IH.
Qed.

Lemma scan_line_unterminated (l : list byte) :
  no_newline l -> scan_line l = (l, length l, true).
Proof.
  unfold no_newline. induction l as [|c l IH]; intros Hl; simpl.
  - done.
  - apply not_elem_of_cons in Hl as [Hc Hl].
    destruct (Ascii.eqb_spec c newline) as [->|_]; [done|].
    by rewrite IH.
Qed.

Lemma ios_or_goodbit (f : iostate) : ios_or f goodbit = f.
Proof. destruct f as [e fl b]. unfold ios_or; simpl. by rewrite !orb_false_r. Qed.

Lemma good_rdstate (s : ifstream) : good s = true -> rdstate s = goodbit.
Proof.
  unfold good. destruct (rdstate s) as [[] [] []]; simpl; done.
Qed.

Lemma good_not_fail (s : ifstream) : good s = true -> fail s = false.
Proof. intros H. unfold fail. by rewrite (good_rdstate _ H). Qed.

Lemma unread_advance (c : list byte) (p n : nat) (f : iostate) (g : nat) :
  unread (mk_ifstream c (p + n) f g) = drop n (unread (mk_ifstream c p f g)).
Proof. unfold unread; simpl. by rewrite drop_drop. Qed.

(** A complete line is extracted with its newline; the stream stays
    good. *)
Lemma getline_terminated (s : ifstream) (str l rest : list byte) :
  good s = true -> unread s = l ++ newline :: rest -> no_newline l ->
  getline s str =
    (mk_ifstream (content s) (gpos s + S (length l)) goodbit (gcount s), l).
Proof.
  intros Hg Hu Hl. unfold getline. rewrite Hg, Hu.
  rewrite (scan_line_terminated _ _ Hl). unfold setstate; simpl.
  by rewrite (good_rdstate _ Hg).
Qed.

(** A last line without newline is extracted too; only [eofbit] is set. *)
Lemma getline_unterminated (s : ifstream) (str l : list byte) :
  good s = true -> unread s = l -> no_newline l -> l ≠ [] ->
  getline s str =
    (mk_ifstream (content s) (gpos s + length l)
                 (mk_iostate true false false) (gcount s), l).
Proof.
  intros Hg Hu Hl Hne. unfold getline. rewrite Hg, Hu.
  rewrite (scan_line_unterminated _ Hl). unfold setstate; simpl.
  rewrite (good_rdstate _ Hg). simpl.
  destruct l; [done|]. done.
Qed.

Lemma getline_exhausted (s : ifstream) (str : list byte) :
  good s = true -> unread s = [] ->
  getline s str =
    (mk_ifstream (content s) (gpos s + 0)
                 (mk_iostate true true false) (gcount s), []).
Proof.
  intros Hg Hu. unfold getline. rewrite Hg, Hu. simpl.
  unfold setstate; simpl. by rewrite (good_rdstate _ Hg).
Qed.

(** ** The encoder's loop *)

Lemma write_record (out l : list byte) :
  ostream_write
    (ostream_write out (size_t_bytes (to_size_t (N.of_nat (length l))))
                   sizeof_size_t)
    l (N.to_nat (to_size_t (N.of_nat (length l))))
  = out ++ written_for l.
Proof. unfold written_for, ostream_write. simpl. by rewrite !app_assoc. Qed.

(** The loop on a stream whose unread part is the terminated lines [ls]
    followed by [last], a possibly empty line without newline: every line
    of [ls] is written, then [last] unless it is empty, and one more turn
    than there are lines is enough. *)
Lemma convert_loop_lines (ls : list (list byte)) :
  forall (fuel : nat) (s : ifstream) (line out last : list byte),
    good s = true ->
    unread s = unlines ls ++ last ->
    Forall no_newline ls -> no_newline last ->
    length ls + (if last is [] then 0 else 1) < fuel ->
    exists s' line',
      convert_loop fuel s line out =
        Some (s', line',
              out ++ written_lines ls
                  ++ (if last is [] then [] else written_for last)).
Proof.
  induction ls as [|l ls IH]; intros fuel s line out last Hg Hu Hls Hlast Hf.
  - simpl in Hu. unfold written_lines; simpl.
    destruct last as [|c last].
    + destruct fuel as [|fuel]; [simpl in Hf; lia|].
      cbn [convert_loop]. rewrite (getline_exhausted _ _ Hg Hu).
      cbn. rewrite app_nil_r. eauto.
    + destruct fuel as [|[|fuel]]; [simpl in Hf; lia..|].
      cbn [convert_loop].
      rewrite (getline_unterminated _ _ _ Hg Hu Hlast) by done.
      cbn [fail rdstate failbit badbit orb]. rewrite write_record.
      unfold getline at 1. cbn. eauto.
  - destruct fuel as [|fuel]; [simpl in Hf; lia|].
    apply Forall_cons in Hls as [Hl Hls].
    cbn [unlines] in Hu. rewrite <- app_assoc in Hu. cbn [app] in Hu.
    cbn [convert_loop]. rewrite (getline_terminated _ _ _ _ Hg Hu Hl).
    cbn [fail rdstate failbit badbit goodbit orb]. rewrite write_record.
    edestruct (IH fuel
                 (mk_ifstream (content s) (gpos s + S (length l)) goodbit
                              (gcount s))
                 l (out ++ written_for l) last) as (s' & line' & ->);
      [done | | done | done | simpl in Hf |- *; lia |].
    + rewrite unread_advance.
      change (unread (mk_ifstream (content s) (gpos s) goodbit (gcount s)))
        with (unread s).
      rewrite Hu, (cons_middle newline l), app_assoc.
      apply drop_app_length'. rewrite length_app; simpl; lia.
    + exists s', line'. unfold written_lines. cbn [map concat].
      by rewrite <- !app_assoc.
Qed.

(** ** The decoder's reads *)

(** A read that finds all [n] bytes stores them and sets no flag. *)
Lemma istream_read_full (s : ifstream) (buf a rest : list byte) (n : nat) :
  good s = true -> unread s = a ++ rest -> length a = n -> length buf = n ->
  istream_read s buf n =
    (a, mk_ifstream (content s) (gpos s + n) (rdstate s) n).
Proof.
  intros Hg Hu <- Hb. unfold istream_read. rewrite Hg, Hu.
  rewrite take_app_length, Nat.eqb_refl.
  rewrite drop_ge by lia. by rewrite app_nil_r.
Qed.

(** A read that finds fewer than [n] bytes stores what is there over the
    front of the destination and sets [eofbit | failbit]. *)
Lemma istream_read_short (s : ifstream) (buf : list byte) (n : nat) :
  good s = true -> length (unread s) < n ->
  istream_read s buf n =
    (unread s ++ drop (length (unread s)) buf,
     mk_ifstream (content s) (gpos s + length (unread s))
                 (mk_iostate true true false) (length (unread s))).
Proof.
  intros Hg Hlt. unfold istream_read. rewrite Hg.
  rewrite take_ge by lia.
  destruct (Nat.eqb_spec (length (unread s)) n) as [E|_]; [lia|].
  unfold setstate; simpl. by rewrite (good_rdstate _ Hg).
Qed.

(** A read on a stream that is not good stores nothing. *)
Lemma istream_read_not_good (s : ifstream) (buf : list byte) (n : nat) :
  good s = false ->
  istream_read s buf n =
    (buf, mk_ifstream (content s) (gpos s)
            (ios_or (rdstate s) (mk_iostate false true false)) 0).
Proof. intros Hg. unfold istream_read. by rewrite Hg. Qed.

(** ** The decoder's calls *)

Lemma string_fill_constructible (n : N) (c : byte) :
  constructible n -> string_fill n c = inr (replicate (N.to_nat n) c).
Proof.
  intros [Hm Hh]. unfold string_fill.
  destruct (N.ltb_spec max_size n); [lia|].
  destruct (N.ltb_spec heap n); [lia|]. done.
Qed.

Lemma string_fill_inr (n : N) (c : byte) (r : list byte) :
  string_fill n c = inr r ->
  r = replicate (N.to_nat n) c /\ constructible n.
Proof.
  unfold string_fill, constructible.
  destruct (N.ltb_spec max_size n); [done|].
  destruct (N.ltb_spec heap n); [done|]. intros [= <-]. done.
Qed.

Lemma string_fill_inl (n : N) (c : byte) (e : exception) :
  string_fill n c = inl e -> ~ constructible n.
Proof.
  unfold string_fill, constructible.
  destruct (N.ltb_spec max_size n); [lia|].
  destruct (N.ltb_spec heap n); [lia|]. done.
Qed.

(** With a whole length field in a good stream, the first read fills
    [recordLength]; the call then throws, with the stream good and just
    after the field, or goes on to the read of the payload. *)
Lemma read_whole_field (indet : N) (s : ifstream) :
  good s = true ->
  sizeof_size_t <= length (unread s) ->
  readLengthIndicatedRecord indet s =
    match string_fill (size_t_value (take sizeof_size_t (unread s))) nul with
    | inl e =>
        Throws e (mk_ifstream (content s) (gpos s + sizeof_size_t)
                              (rdstate s) sizeof_size_t)
    | inr record =>
        let '(record', s2) :=
          istream_read
            (mk_ifstream (content s) (gpos s + sizeof_size_t) (rdstate s)
                         sizeof_size_t)
            record
            (N.to_nat (size_t_value (take sizeof_size_t (unread s)))) in
        Returns record' s2
    end.
Proof.
  intros Hg Hge.
  assert (Hu : unread s = take sizeof_size_t (unread s)
                          ++ drop sizeof_size_t (unread s))
    by (by rewrite take_drop).
  unfold readLengthIndicatedRecord.
  rewrite (istream_read_full s _ _ _ _ Hg Hu).
  - done.
  - rewrite length_take. lia.
  - apply length_size_t_bytes.
Qed.

(** The decoder on a stream that starts with a length field [field]
    followed by as many bytes as the field says, when a string of that
    length can be constructed. *)
Lemma read_record_field (indet : N) (s : ifstream)
    (field payload rest : list byte) :
  good s = true -> length field = sizeof_size_t ->
  size_t_value field = N.of_nat (length payload) ->
  constructible (N.of_nat (length payload)) ->
  unread s = field ++ payload ++ rest ->
  readLengthIndicatedRecord indet s =
    Returns payload
      (mk_ifstream (content s) (gpos s + sizeof_size_t + length payload)
                   (rdstate s) (length payload)).
Proof.
  intros Hg Hlen Hval Hcon Hu.
  assert (Htake : take sizeof_size_t (unread s) = field)
    by (rewrite Hu; by apply take_app_length').
  rewrite read_whole_field by (try done; rewrite Hu, length_app; lia).
  rewrite Htake, Hval, (string_fill_constructible _ _ Hcon), Nat2N.id.
  rewrite (istream_read_full _ _ payload rest).
  - done.
  - done.
  - rewrite unread_advance.
    change (unread (mk_ifstream (content s) (gpos s) (rdstate s)
                                sizeof_size_t))
      with (unread s).
    rewrite Hu. by apply drop_app_length'.
  - done.
  - apply length_replicate.
Qed.

Lemma read_record_complete (indet : N) (s : ifstream)
    (payload rest : list byte) :
  good s = true -> fits_size_t payload ->
  constructible (N.of_nat (length payload)) ->
  unread s = record_of payload ++ rest ->
  readLengthIndicatedRecord indet s =
    Returns payload
      (mk_ifstream (content s) (gpos s + sizeof_size_t + length payload)
                   (rdstate s) (length payload)).
Proof.
  intros Hg Hfit Hcon Hu. unfold record_of in Hu.
  rewrite <- app_assoc in Hu.
  apply (read_record_field indet s (size_t_bytes (N.of_nat (length payload)))
           payload rest Hg); [| |done|done].
  - apply length_size_t_bytes.
  - by rewrite size_t_value_bytes, (to_size_t_fits _ Hfit).
Qed.

(** The decoder on a stream that holds a whole length field of value [L]
    but fewer than [L] bytes after it: it throws when a string of [L]
    bytes cannot be constructed; otherwise the bytes that are there come
    back followed by the NUL bytes the string was built with. *)
Lemma read_record_truncated (indet : N) (s : ifstream) :
  good s = true ->
  sizeof_size_t <= length (unread s) ->
  length (unread s)
    < sizeof_size_t
      + N.to_nat (size_t_value (take sizeof_size_t (unread s))) ->
  readLengthIndicatedRecord indet s =
    match string_fill (size_t_value (take sizeof_size_t (unread s))) nul with
    | inl e =>
        Throws e (mk_ifstream (content s) (gpos s + sizeof_size_t)
                              (rdstate s) sizeof_size_t)
    | inr _ =>
        Returns
          (drop sizeof_size_t (unread s)
           ++ replicate
                (sizeof_size_t
                 + N.to_nat (size_t_value (take sizeof_size_t (unread s)))
                 - length (unread s)) nul)
          (mk_ifstream (content s) (gpos s + length (unread s))
                       (mk_iostate true true false)
                       (length (unread s) - sizeof_size_t))
    end.
Proof.
  intros Hg Hge Hlt. rewrite (read_whole_field indet s Hg Hge).
  set (L := size_t_value (take sizeof_size_t (unread s))) in *.
  destruct (string_fill L nul) as [e|record] eqn:Hfill; [done|].
  apply string_fill_inr in Hfill as [-> _].
  set (s1 := mk_ifstream _ _ _ _).
  assert (Hu1 : unread s1 = drop sizeof_size_t (unread s)).
  { subst s1. by rewrite unread_advance. }
  assert (Hlen1 : length (unread s1) = length (unread s) - sizeof_size_t)
    by (by rewrite Hu1, length_drop).
  rewrite istream_read_short; [|done|lia].
  rewrite Hu1, drop_replicate. subst s1. cbn [content gpos].
  rewrite length_drop.
  f_equal; [f_equal; f_equal; lia | f_equal; lia].
Qed.

(** The decoder on a good stream that ends before a whole length field:
    [recordLength] keeps its indeterminate bytes behind those that were
    read, the stream is failed by the first read, and the call throws or
    returns a string of NUL bytes as that length decides. *)
Lemma read_record_exhausted (indet : N) (s : ifstream) :
  good s = true -> length (unread s) < sizeof_size_t ->
  readLengthIndicatedRecord indet s =
    match string_fill
            (size_t_value
               (unread s ++ drop (length (unread s)) (size_t_bytes indet)))
            nul with
    | inl e =>
        Throws e (mk_ifstream (content s) (gpos s + length (unread s))
                              (mk_iostate true true false)
                              (length (unread s)))
    | inr record =>
        Returns record
                (mk_ifstream (content s) (gpos s + length (unread s))
                             (mk_iostate true true false) 0)
    end.
Proof.
  intros Hg Hlt. unfold readLengthIndicatedRecord.
  rewrite (istream_read_short _ _ _ Hg Hlt).
  destruct (string_fill _ nul) as [e|record]; [done|].
  by rewrite istream_read_not_good.
Qed.

(** The caller's loop over a stream of whole records: the records come
    back in order, then the call at the end of the stream ends the loop,
    by the failed stream when its indeterminate [recordLength] can be
    constructed and by the constructor's exception when it cannot. *)
Lemma read_all_records (ls : list (list byte)) :
  forall (fuel : nat) (indet : nat -> N) (k : nat) (s : ifstream),
    0 < sizeof_size_t ->
    good s = true -> unread s = records_of ls ->
    Forall fits_size_t ls -> Forall line_constructible ls ->
    length ls < fuel ->
    exists s',
      read_all fuel indet k s =
        Some (match string_fill (to_size_t (indet (k + length ls))) nul with
              | inl e => Aborted e ls s'
              | inr _ => Finished ls s'
              end) /\
      rdstate s' = mk_iostate true true false /\
      unread s' = [] /\ gcount s' = 0.
Proof.
  induction ls as [|l ls IH]; intros fuel indet k s HW Hg Hu Hls Hcs Hf;
    (destruct fuel as [|fuel]; [simpl in Hf; lia|]); cbn [read_all].
  - cbn [records_of] in Hu.
    rewrite (read_record_exhausted (indet k) s Hg)
      by (rewrite Hu; simpl; lia).
    rewrite Hu. cbn [length app skipn]. rewrite drop_0, size_t_value_bytes.
    rewrite !Nat.add_0_r.
    eexists. split; [|split; [|split]].
    + destruct (string_fill _ nul); [done|]. cbn. done.
    + done.
    + exact Hu.
    + done.
  - apply Forall_cons in Hls as [Hl Hls]. apply Forall_cons in Hcs as [Hc Hcs].
    cbn [records_of] in Hu.
    rewrite (read_record_complete _ _ _ _ Hg Hl Hc Hu).
    set (s1 := mk_ifstream _ _ _ _).
    assert (Hg1 : good s1 = true) by exact Hg.
    rewrite (good_not_fail _ Hg1).
    destruct (IH fuel indet (S k) s1 HW Hg1) as (s' & -> & Hs');
      [ | done | done | simpl in Hf; lia | ].
    + subst s1. rewrite <- Nat.add_assoc, unread_advance.
      change (unread (mk_ifstream (content s) (gpos s) (rdstate s)
                                  (length l)))
        with (unread s).
      rewrite Hu. unfold record_of. rewrite <- app_assoc, app_assoc.
      apply drop_app_length'.
      rewrite length_app, length_size_t_bytes. done.
    + exists s'. split; [|done]. cbn [length].
      rewrite Nat.add_succ_r.
      by destruct (string_fill _ nul).
Qed.

Lemma le_value_bound (bs : list byte) :
  (le_value bs < 256 ^ N.of_nat (length bs))%N.
Proof.
  induction bs as [|b bs IH]; [simpl; lia|].
  cbn [le_value length]. rewrite Nat2N.inj_succ, N.pow_succ_r'.
  pose proof (N_ascii_bounded b). lia.
Qed.

Lemma size_t_value_bound (bs : list byte) :
  length bs = sizeof_size_t -> (size_t_value bs < size_t_modulus)%N.
Proof.
  intros H. unfold size_t_value, size_t_modulus. rewrite <- H.
  destruct big_endian; [rewrite <- (length_rev bs)|]; apply le_value_bound.
Qed.

(** ** Opening and closing the output file *)

Lemma file_bytes_store (w : world) (p : string) (f : file) :
  file_bytes (store w p f) p = bytes f.
Proof. unfold file_bytes, store; simpl. by rewrite lookup_insert_eq. Qed.

Lemma file_bytes_store_ne (w : world) (p q : string) (f : file) :
  p ≠ q -> file_bytes (store w p f) q = file_bytes w q.
Proof.
  intros H. unfold file_bytes, store; simpl. by rewrite lookup_insert_ne.
Qed.

Lemma ofstream_open_true (w : world) (p : string) :
  (ofstream_open w p).1 = true ->
  exists f, (ofstream_open w p).2 = store w p f /\ bytes f = [].
Proof.
  unfold ofstream_open.
  destruct (files w !! p) as [f|]; [destruct (may_write f)|
                                    destruct (may_create w p)];
    simpl; intros H; try done; eauto.
Qed.

Lemma ofstream_open_false (w : world) (p : string) :
  (ofstream_open w p).1 = false -> (ofstream_open w p).2 = w.
Proof.
  unfold ofstream_open.
  destruct (files w !! p) as [f|]; [destruct (may_write f)|
                                    destruct (may_create w p)];
    simpl; intros H; done.
Qed.

Lemma ofstream_close_store (w : world) (p : string) (f : file)
    (written : list byte) :
  file_bytes (ofstream_close (store w p f) p written) p = written /\
  is_Some (files (ofstream_close (store w p f) p written) !! p) /\
  cerr (ofstream_close (store w p f) p written) = cerr w /\
  forall q, p ≠ q ->
    files (ofstream_close (store w p f) p written) !! q = files w !! q.
Proof.
  unfold ofstream_close. cbn [store files]. rewrite lookup_insert_eq.
  split; [apply file_bytes_store|].
  split; [cbn [store files]; by rewrite lookup_insert_eq|]. split; [done|].
  intros q Hq. cbn [store files]. by rewrite !lookup_insert_ne.
Qed.

(** The encoder when both files open: the output file ends up holding
    what the loop wrote for the lines that the input stream delivers, the
    other files and [std::cerr] are as before. *)
Lemma convert_opened (w : world) (csvFile outputFile : string)
    (ls : list (list byte)) (last : list byte) (fuel : nat) :
  ifstream_open w csvFile = true ->
  (ofstream_open w outputFile).1 = true ->
  file_bytes (ofstream_open w outputFile).2 csvFile = unlines ls ++ last ->
  Forall no_newline ls -> no_newline last ->
  length ls + (if last is [] then 0 else 1) < fuel ->
  exists w',
    convertCSVToLengthIndicated fuel w csvFile outputFile = Some w' /\
    file_bytes w' outputFile =
      written_lines ls ++ (if last is [] then [] else written_for last) /\
    is_Some (files w' !! outputFile) /\
    cerr w' = cerr w /\
    forall q, outputFile ≠ q -> files w' !! q = files w !! q.
Proof.
  intros Hin Hout Htext Hls Hlast Hf. unfold convertCSVToLengthIndicated.
  destruct (ofstream_open_true _ _ Hout) as (f & Hw1 & _).
  destruct (ofstream_open w outputFile) as [o w1]. simpl in Hout, Htext, Hw1.
  subst o w1. rewrite Hin. cbn [negb orb].
  destruct (convert_loop_lines ls fuel
              (ifstream_of (file_bytes (store w outputFile f) csvFile))
              [] [] last) as (s' & line' & ->); try done.
  eexists; split; [done|]. apply ofstream_close_store.
Qed.

Lemma written_lines_app (ls1 ls2 : list (list byte)) :
  written_lines (ls1 ++ ls2) = written_lines ls1 ++ written_lines ls2.
Proof. unfold written_lines. by rewrite map_app, concat_app. Qed.

Lemma written_lines_records (ls : list (list byte)) :
  Forall fits_size_t ls -> written_lines ls = records_of ls.
Proof.
  induction 1 as [|l ls Hl _ IH]; [done|].
  unfold written_lines in *. cbn [map concat records_of].
  by rewrite IH, (written_for_fits _ Hl).
Qed.

(** The encoder on a text that holds the lines [ls], with or without
    the last newline. *)
Lemma convert_holds_lines (w : world) (csvFile outputFile : string)
    (ls : list (list byte)) (fuel : nat) :
  ifstream_open w csvFile = true ->
  (ofstream_open w outputFile).1 = true ->
  holds_lines (file_bytes (ofstream_open w outputFile).2 csvFile) ls ->
  Forall no_newline ls ->
  length ls < fuel ->
  exists w',
    convertCSVToLengthIndicated fuel w csvFile outputFile = Some w' /\
    file_bytes w' outputFile = written_lines ls /\
    is_Some (files w' !! outputFile) /\
    cerr w' = cerr w /\
    forall q, outputFile ≠ q -> files w' !! q = files w !! q.
Proof.
  intros Hin Hout [Htext|(init & last & -> & Hne & Htext)] Hls Hf.
  - destruct (convert_opened w csvFile outputFile ls [] fuel)
      as (w' & ? & ? & ?); try done.
    + by rewrite app_nil_r.
    + unfold no_newline. apply not_elem_of_nil.
    + lia.
    + exists w'. by rewrite app_nil_r in *.
  - apply Forall_app in Hls as [Hinit Hlast].
    apply Forall_cons in Hlast as [Hlast _].
    rewrite length_app in Hf. simpl in Hf.
    destruct (convert_opened w csvFile outputFile init last fuel)
      as (w' & ? & Hb & ?); try done.
    + by destruct last.
    + exists w'. split; [done|]. split; [|done].
      rewrite Hb, written_lines_app. destruct last; [done|].
      unfold written_lines. cbn [map concat]. by rewrite app_nil_r.
Qed.

Lemma file_bytes_after_open (w : world) (csvFile outputFile : string) :
  csvFile ≠ outputFile ->
  file_bytes (ofstream_open w outputFile).2 csvFile = file_bytes w csvFile.
Proof.
  intros Hne. destruct (ofstream_open w outputFile).1 eqn:E.
  - destruct (ofstream_open_true _ _ E) as (f & -> & _).
    by apply file_bytes_store_ne.
  - by rewrite (ofstream_open_false _ _ E).
Qed.

Lemma small_fits_size_t (l : list byte) :
  0 < sizeof_size_t -> length l < 256 -> fits_size_t l.
Proof.
  intros HW Hl. unfold fits_size_t, size_t_modulus.
  apply N.lt_le_trans with (256 ^ 1)%N; [simpl; lia|].
  apply N.pow_le_mono_r; lia.
Qed.

(** Every text is a sequence of terminated lines followed by a last part
    without newline. *)
Lemma text_split (text : list byte) :
  exists ls last,
    text = unlines ls ++ last /\ Forall no_newline ls /\ no_newline last /\
    length ls + length last <= length text.
Proof.
  unfold no_newline.
  induction text as [|c text (ls & last & -> & Hls & Hlast & Hlen)].
  - exists [], []. repeat split; [done| apply not_elem_of_nil | done].
  - destruct (decide (c = newline)) as [->|Hc].
    + exists ([] :: ls), last. repeat split; try done.
      * constructor; [apply not_elem_of_nil | done].
      * simpl. lia.
    + destruct ls as [|l ls].
      * exists [], (c :: last). repeat split; try done.
        by apply not_elem_of_cons.
      * apply Forall_cons in Hls as [Hl Hls].
        exists ((c :: l) :: ls), last. repeat split; try done.
        -- constructor; [|done]. apply not_elem_of_cons. split; [done|done].
        -- simpl in *. rewrite !length_app in *. simpl in *. lia.
Qed.

Lemma last_unlines (ls : list (list byte)) :
  ls ≠ [] -> last (unlines ls) = Some newline.
Proof.
  induction ls as [|l ls IH]; [done|]. intros _. cbn [unlines].
  rewrite (cons_middle newline l), app_assoc.
  destruct ls as [|l' ls].
  - simpl. rewrite app_nil_r. by rewrite last_snoc.
  - rewrite last_app, IH by done. done.
Qed.

Lemma unlines_app (ls1 ls2 : list (list byte)) :
  unlines (ls1 ++ ls2) = unlines ls1 ++ unlines ls2.
Proof.
  induction ls1 as [|l ls1 IH]; [done|]. cbn [app unlines].
  rewrite IH. by rewrite <- app_assoc.
Qed.

Lemma take_drop_record_of (l : list byte) :
  take sizeof_size_t (record_of l) = size_t_bytes (N.of_nat (length l)) /\
  drop sizeof_size_t (record_of l) = l.
Proof.
  unfold record_of. split.
  - apply take_app_length'. by rewrite length_size_t_bytes.
  - apply drop_app_length'. by rewrite length_size_t_bytes.
Qed.

Lemma length_unlines (ls : list (list byte)) :
  length (unlines ls) = length (concat ls) + length ls.
Proof.
  induction ls as [|l ls IH]; [done|]. cbn [unlines concat length].
  rewrite !length_app. cbn [length]. rewrite IH. lia.
Qed.

(** * The claims *)

(** C4. When the input does not open or the output does not open, the
    encoder sends the open-failure message to [std::cerr] and returns
    without reaching the loop: the output file is empty or the files are
    all as they were, so no record was written or appended, and no other
    file changes. *)
Theorem open_failure_writes_nothing (fuel : nat) (w : world)
    (csvFile outputFile : string) :
  ifstream_open w csvFile = false \/ (ofstream_open w outputFile).1 = false ->
  exists w',
    convertCSVToLengthIndicated fuel w csvFile outputFile = Some w' /\
    cerr w' = cerr w ++ [open_error] /\
    (file_bytes w' outputFile = [] \/ files w' = files w) /\
    forall q, outputFile ≠ q -> files w' !! q = files w !! q.
Proof.
  intros H. unfold convertCSVToLengthIndicated.
  pose proof (ofstream_open_true w outputFile) as Ht.
  pose proof (ofstream_open_false w outputFile) as Hf.
  destruct (ofstream_open w outputFile) as [o w1]. simpl in H, Ht, Hf.
  assert (Hc : negb (ifstream_open w csvFile) || negb o = true).
  { destruct H as [-> | ->]; [done|]. apply orb_true_r. }
  rewrite Hc. eexists; split; [done|]. cbn [cerr_put cerr files].
  destruct o.
  - destruct (Ht eq_refl) as (f & -> & Hb). split; [done|]. split.
    + left. unfold file_bytes, cerr_put, store; cbn [files].
      by rewrite lookup_insert_eq.
    + intros q Hq. cbn [store files]. by rewrite lookup_insert_ne.
  - rewrite (Hf eq_refl). split; [done|]. split; [by right|done].
Qed.

(** C9. When the input does not open but the output does, the encoder
    still leaves the output file in existence and empty, whatever it
    held before, and sends the open-failure message to [std::cerr]. *)
Theorem open_failure_truncates_output (fuel : nat) (w : world)
    (csvFile outputFile : string) :
  ifstream_open w csvFile = false ->
  (ofstream_open w outputFile).1 = true ->
  exists w' f,
    convertCSVToLengthIndicated fuel w csvFile outputFile = Some w' /\
    files w' !! outputFile = Some f /\ bytes f = [] /\
    cerr w' = cerr w ++ [open_error].
Proof.
  intros Hin Hout. unfold convertCSVToLengthIndicated.
  destruct (ofstream_open_true w outputFile Hout) as (f & Hs & Hb).
  destruct (ofstream_open w outputFile) as [o w1]. simpl in Hs, Hout.
  subst o w1. rewrite Hin. cbn [negb orb].
  eexists _, f. split; [done|]. split; [|done].
  cbn [cerr_put store files]. by rewrite lookup_insert_eq.
Qed.

(** C5, amended. Encoding a file that holds the single line [a,b,c]
    gives an output file of [sizeof(size_t) + 5] bytes: a length field
    holding 5 and then the five bytes of the line, the two commas
    included. *)
Theorem single_record_abc (w : world) (csvFile outputFile : string)
    (fuel : nat) :
  0 < sizeof_size_t ->
  csvFile ≠ outputFile ->
  ifstream_open w csvFile = true ->
  (ofstream_open w outputFile).1 = true ->
  holds_lines (file_bytes w csvFile) [abc_line] ->
  1 < fuel ->
  exists w',
    convertCSVToLengthIndicated fuel w csvFile outputFile = Some w' /\
    length (file_bytes w' outputFile) = sizeof_size_t + 5 /\
    size_t_value (take sizeof_size_t (file_bytes w' outputFile)) = 5%N /\
    drop sizeof_size_t (file_bytes w' outputFile) = abc_line.
Proof.
  intros HW Hne Hin Hout Htext Hf.
  rewrite <- (file_bytes_after_open w _ outputFile Hne) in Htext.
  assert (Hfit : fits_size_t abc_line)
    by (apply small_fits_size_t; [done | simpl; lia]).
  destruct (convert_holds_lines w csvFile outputFile [abc_line] fuel)
    as (w' & Hconv & Hbytes & _); try done.
  { repeat constructor. by apply no_newline_check. }
  exists w'. split; [done|]. rewrite Hbytes.
  rewrite written_lines_records by (by repeat constructor).
  cbn [records_of]. rewrite app_nil_r.
  destruct (take_drop_record_of abc_line) as [-> ->].
  split; [unfold record_of; by rewrite length_app, length_size_t_bytes|].
  split; [|done].
  rewrite size_t_value_bytes. by apply to_size_t_fits.
Qed.

(** C7. For a text file whose lines each end with a newline, the output
    file is the sequence of the records of the lines: each record is a
    length field whose value is the number of bytes of the line without
    its newline, followed by these bytes, none of which is a newline. *)
Theorem line_terminator_stripped (w : world) (csvFile outputFile : string)
    (lines : list (list byte)) (fuel : nat) :
  csvFile ≠ outputFile ->
  ifstream_open w csvFile = true ->
  (ofstream_open w outputFile).1 = true ->
  file_bytes w csvFile = unlines lines ->
  Forall no_newline lines -> Forall fits_size_t lines ->
  length lines < fuel ->
  exists w',
    convertCSVToLengthIndicated fuel w csvFile outputFile = Some w' /\
    file_bytes w' outputFile = records_of lines /\
    Forall (fun l =>
              size_t_value (take sizeof_size_t (record_of l))
                = N.of_nat (length l) /\
              drop sizeof_size_t (record_of l) = l /\
              (newline ∉ drop sizeof_size_t (record_of l)) /\
              length (record_of l) = sizeof_size_t + length l) lines.
Proof.
  intros Hne Hin Hout Htext Hnl Hfit Hf.
  rewrite <- (file_bytes_after_open w _ outputFile Hne) in Htext.
  destruct (convert_holds_lines w csvFile outputFile lines fuel)
    as (w' & Hconv & Hbytes & _); try done.
  { by left. }
  exists w'. split; [done|].
  split; [by rewrite Hbytes, written_lines_records|].
  apply Forall_forall. intros l Hl.
  rewrite Forall_forall in Hnl, Hfit.
  destruct (take_drop_record_of l) as [-> ->].
  rewrite size_t_value_bytes, (to_size_t_fits _ (Hfit l Hl)).
  repeat split; [apply (Hnl l Hl)|].
  unfold record_of. by rewrite length_app, length_size_t_bytes.
Qed.

(** C1. For lines without newline, of lengths that are [size_t] values
    and that can be constructed as strings, the encoder run on a text file
    holding the lines (the last newline may be missing after a last line
    that is not empty), followed by the decoder called until the stream
    fails, gives back the lines in order.  Then comes the call at the end
    of the stream, with [recordLength] never set: when a string of that
    length can be constructed the stream is found failed and the loop
    ends with the lines; when it cannot, the constructor's exception
    leaves the loop in place of the end of the stream. *)
Theorem roundtrip_lines (w : world) (csvFile outputFile : string)
    (lines : list (list byte)) (fuel fuel' : nat) (indet : nat -> N) :
  0 < sizeof_size_t ->
  csvFile ≠ outputFile ->
  ifstream_open w csvFile = true ->
  (ofstream_open w outputFile).1 = true ->
  holds_lines (file_bytes w csvFile) lines ->
  Forall no_newline lines -> Forall fits_size_t lines ->
  Forall line_constructible lines ->
  length lines < fuel -> length lines < fuel' ->
  exists w' s',
    convertCSVToLengthIndicated fuel w csvFile outputFile = Some w' /\
    read_all fuel' indet 0 (ifstream_of (file_bytes w' outputFile))
      = Some (match string_fill (to_size_t (indet (length lines))) nul with
              | inl e => Aborted e lines s'
              | inr _ => Finished lines s'
              end) /\
    eof s' = true /\ fail s' = true /\ unread s' = [].
Proof.
  intros HW Hne Hin Hout Htext Hnl Hfit Hcon Hf Hf'.
  rewrite <- (file_bytes_after_open w _ outputFile Hne) in Htext.
  destruct (convert_holds_lines w csvFile outputFile lines fuel)
    as (w' & Hconv & Hbytes & _); try done.
  rewrite (written_lines_records _ Hfit) in Hbytes.
  destruct (read_all_records lines fuel' indet 0
              (ifstream_of (file_bytes w' outputFile)))
    as (s' & Hread & Hst & Hun & _); try done.
  exists w', s'. split; [done|]. split; [exact Hread|].
  unfold eof, fail. by rewrite Hst.
Qed.

(** C2. On a good stream whose unread bytes begin with a length field
    of value [L] and hold at least [L] more bytes, when a string of [L]
    bytes can be constructed, the decoder returns the [L] bytes after
    the field, a string of [L] bytes, and moves the position by the
    width of the field plus [L], to the byte after the payload; the
    stream stays good and the last read counted [L] bytes. *)
Theorem read_well_formed_record (indet L : N) (s : ifstream) :
  good s = true ->
  size_t_value (take sizeof_size_t (unread s)) = L ->
  sizeof_size_t + N.to_nat L <= length (unread s) ->
  constructible L ->
  exists record s',
    readLengthIndicatedRecord indet s = Returns record s' /\
    record = take (N.to_nat L) (drop sizeof_size_t (unread s)) /\
    N.of_nat (length record) = L /\
    gpos s' = gpos s + (sizeof_size_t + N.to_nat L) /\
    unread s' = drop (sizeof_size_t + N.to_nat L) (unread s) /\
    good s' = true /\
    gcount s' = N.to_nat L.
Proof.
  intros Hg Hval Hlen Hcon.
  set (field := take sizeof_size_t (unread s)) in *.
  set (payload := take (N.to_nat L) (drop sizeof_size_t (unread s))).
  set (rest := drop (sizeof_size_t + N.to_nat L) (unread s)).
  assert (Hu : unread s = field ++ payload ++ rest).
  { subst field payload rest.
    by rewrite <- drop_drop, !take_drop. }
  assert (Hfield : length field = sizeof_size_t)
    by (subst field; rewrite length_take; lia).
  assert (Hpay : length payload = N.to_nat L)
    by (subst payload; rewrite length_take, length_drop; lia).
  assert (Hval' : size_t_value field = N.of_nat (length payload))
    by (rewrite Hpay, N2Nat.id; done).
  assert (Hcon' : constructible (N.of_nat (length payload)))
    by (by rewrite Hpay, N2Nat.id).
  rewrite (read_record_field indet s field payload rest
             Hg Hfield Hval' Hcon' Hu).
  eexists _, _; split; [done|]. cbn [gpos gcount]. rewrite Hpay.
  repeat split; [by rewrite N2Nat.id | lia | | done].
  rewrite <- Nat.add_assoc, unread_advance. done.
Qed.

(** C3, amended. On a good stream whose unread bytes begin with a length
    field of value [L] and hold only [k] more bytes, [k] less than [L]:
    when a string of [L] bytes cannot be constructed the call throws,
    with the stream good and just after the field; otherwise it returns
    a string of [L] bytes, the [k] bytes that were left followed by NUL
    bytes, and leaves the stream at its end with [eofbit | failbit] and
    a count of [k].  Nothing else tells the caller of the truncation,
    and with no byte left after the field what the caller has in hand is
    what a call at the end of the stream whose [recordLength] happens to
    hold [L] leaves. *)
Theorem truncated_record_padded (indet L : N) (s : ifstream) :
  good s = true ->
  sizeof_size_t <= length (unread s) ->
  size_t_value (take sizeof_size_t (unread s)) = L ->
  length (unread s) < sizeof_size_t + N.to_nat L ->
  readLengthIndicatedRecord indet s =
    match string_fill L nul with
    | inl e =>
        Throws e (mk_ifstream (content s) (gpos s + sizeof_size_t)
                              (rdstate s) sizeof_size_t)
    | inr _ =>
        Returns
          (drop sizeof_size_t (unread s)
           ++ replicate (sizeof_size_t + N.to_nat L - length (unread s)) nul)
          (mk_ifstream (content s) (gpos s + length (unread s))
                       (mk_iostate true true false)
                       (length (unread s) - sizeof_size_t))
    end /\
  (forall record s',
     readLengthIndicatedRecord indet s = Returns record s' ->
     N.of_nat (length record) = L /\
     rdstate s' = mk_iostate true true false /\
     gcount s' = length (unread s) - sizeof_size_t) /\
  (constructible L -> length (unread s) = sizeof_size_t ->
   observed (readLengthIndicatedRecord indet s)
     = observed (readLengthIndicatedRecord L (ifstream_of []))).
Proof.
  intros Hg Hge Hval HL.
  assert (Hcall := read_record_truncated indet s Hg Hge).
  rewrite Hval in Hcall. specialize (Hcall HL).
  split; [exact Hcall|]. split.
  { intros record s' Hret. rewrite Hcall in Hret.
    destruct (string_fill L nul); [done|]. injection Hret as <- <-.
    cbn [rdstate gcount]. split; [|done].
    rewrite length_app, length_drop, length_replicate. lia. }
  intros Hcon Hk.
  rewrite Hcall, (string_fill_constructible _ _ Hcon).
  assert (HW : 0 < sizeof_size_t).
  { destruct (decide (sizeof_size_t = 0)) as [E|]; [|lia].
    rewrite E in Hval. cbn [take] in Hval. rewrite take_0 in Hval.
    unfold size_t_value in Hval. destruct big_endian; simpl in Hval; lia. }
  assert (HLfit : to_size_t L = L).
  { apply to_size_t_fits. rewrite <- Hval. apply size_t_value_bound.
    rewrite length_take. lia. }
  rewrite (read_record_exhausted L (ifstream_of [])) by done.
  cbn [unread ifstream_of gpos content length app skipn].
  rewrite drop_0, size_t_value_bytes, HLfit.
  rewrite (string_fill_constructible _ _ Hcon). cbn [observed rdstate gcount].
  rewrite drop_ge by lia. rewrite Hk, Nat.sub_diag. cbn [app].
  replace (sizeof_size_t + N.to_nat L - sizeof_size_t) with (N.to_nat L)
    by lia.
  done.
Qed.

(** C8. On a stream with fewer bytes left than a length field has, the
    call leaves the stream failed.  From a good stream the first read
    sets [eofbit | failbit] at the end of the file, and [recordLength]
    is the bytes that were left followed by indeterminate ones: the call
    returns, with a string of NUL bytes, only when a string of that
    length can be constructed, and throws otherwise. *)
Theorem length_field_exhausted (indet : N) (s : ifstream) :
  length (unread s) < sizeof_size_t ->
  fail (stream_of (readLengthIndicatedRecord indet s)) = true /\
  (good s = true ->
   readLengthIndicatedRecord indet s =
     match string_fill
             (size_t_value
                (unread s ++ drop (length (unread s)) (size_t_bytes indet)))
             nul with
     | inl e =>
         Throws e (mk_ifstream (content s) (gpos s + length (unread s))
                               (mk_iostate true true false)
                               (length (unread s)))
     | inr record =>
         Returns record
                 (mk_ifstream (content s) (gpos s + length (unread s))
                              (mk_iostate true true false) 0)
     end /\
   rdstate (stream_of (readLengthIndicatedRecord indet s))
     = mk_iostate true true false /\
   unread (stream_of (readLengthIndicatedRecord indet s)) = []).
Proof.
  intros Hlt. split.
  - destruct (good s) eqn:Hg.
    + rewrite (read_record_exhausted indet s Hg Hlt).
      by destruct (string_fill _ nul).
    + unfold readLengthIndicatedRecord.
      rewrite (istream_read_not_good _ _ _ Hg).
      destruct (string_fill _ nul) as [e|record].
      * unfold fail; cbn. by rewrite !orb_true_r.
      * rewrite istream_read_not_good.
        -- unfold fail; cbn. by rewrite !orb_true_r.
        -- unfold good; cbn. by rewrite !orb_true_r.
  - intros Hg. rewrite (read_record_exhausted indet s Hg Hlt).
    split; [done|].
    assert (Hend : drop (gpos s + length (unread s)) (content s) = []).
    { rewrite <- drop_drop. fold (unread s). apply drop_all. }
    destruct (string_fill _ nul); cbn [stream_of rdstate]; by split.
Qed.

(** C6. Encoding an input file without bytes gives an output file that
    exists and has no bytes.  The first call of the decoder on it finds
    no length field: the stream is left at its end with [eofbit] and
    [failbit] set, and the call returns, with a string of NUL bytes, only
    when a string of the indeterminate length of [recordLength] can be
    constructed; otherwise it throws. *)
Theorem empty_input_empty_output (w : world) (csvFile outputFile : string)
    (fuel : nat) (indet : N) :
  0 < sizeof_size_t ->
  ifstream_open w csvFile = true ->
  (ofstream_open w outputFile).1 = true ->
  file_bytes w csvFile = [] ->
  0 < fuel ->
  exists w',
    convertCSVToLengthIndicated fuel w csvFile outputFile = Some w' /\
    file_bytes w' outputFile = [] /\
    is_Some (files w' !! outputFile) /\
    readLengthIndicatedRecord indet (ifstream_of (file_bytes w' outputFile))
      = match string_fill (to_size_t indet) nul with
        | inl e =>
            Throws e (mk_ifstream [] 0 (mk_iostate true true false) 0)
        | inr record =>
            Returns record (mk_ifstream [] 0 (mk_iostate true true false) 0)
        end.
Proof.
  intros HW Hin Hout Hempty Hf.
  assert (Htext : file_bytes (ofstream_open w outputFile).2 csvFile = []).
  { destruct (decide (csvFile = outputFile)) as [->|Hne].
    - destruct (ofstream_open_true _ _ Hout) as (f & -> & Hb).
      by rewrite file_bytes_store.
    - by rewrite file_bytes_after_open. }
  destruct (convert_opened w csvFile outputFile [] [] fuel)
    as (w' & Hconv & Hbytes & Hex & _); try done.
  { unfold no_newline. apply not_elem_of_nil. }
  simpl in Hbytes. exists w'. rewrite Hbytes.
  split; [done|]. split; [done|]. split; [done|].
  rewrite (read_record_exhausted indet (ifstream_of [])) by done.
  cbn [unread ifstream_of gpos content length app skipn Nat.add].
  by rewrite drop_0, size_t_value_bytes.
Qed.

(** C10. For a text that is not empty, does not end with a newline and
    is no longer than a [size_t] can say, the encoder writes the same
    bytes as for the text with a newline appended.  With the text cut
    into its newline-terminated lines and the part after the last
    newline, which is not empty, the output is the records of the lines
    followed by the record of that last part: a length field whose value
    is the number of its bytes, then these bytes. *)
Theorem final_line_without_newline (w1 w2 : world)
    (csv1 out1 csv2 out2 : string) (text : list byte) (fuel : nat) :
  text ≠ [] -> last text ≠ Some newline ->
  (N.of_nat (length text) < size_t_modulus)%N ->
  csv1 ≠ out1 -> csv2 ≠ out2 ->
  ifstream_open w1 csv1 = true -> (ofstream_open w1 out1).1 = true ->
  ifstream_open w2 csv2 = true -> (ofstream_open w2 out2).1 = true ->
  file_bytes w1 csv1 = text ->
  file_bytes w2 csv2 = text ++ [newline] ->
  length text < fuel ->
  exists w1' w2' ls final,
    convertCSVToLengthIndicated fuel w1 csv1 out1 = Some w1' /\
    convertCSVToLengthIndicated fuel w2 csv2 out2 = Some w2' /\
    file_bytes w1' out1 = file_bytes w2' out2 /\
    text = unlines ls ++ final /\
    Forall no_newline ls /\ no_newline final /\ final ≠ [] /\
    file_bytes w1' out1 = records_of ls ++ record_of final /\
    size_t_value (take sizeof_size_t (record_of final))
      = N.of_nat (length final) /\
    drop sizeof_size_t (record_of final) = final.
Proof.
  intros Hne Hlast Hsize Hn1 Hn2 Hi1 Ho1 Hi2 Ho2 Ht1 Ht2 Hf.
  destruct (text_split text) as (ls & final & Htext & Hls & Hfinal & Hlen).
  assert (Hfne : final ≠ []).
  { intros ->. rewrite app_nil_r in Htext. destruct ls as [|l ls].
    - by apply Hne.
    - apply Hlast. rewrite Htext. by apply last_unlines. }
  assert (Hall : Forall no_newline (ls ++ [final])).
  { apply Forall_app. split; [done|]. by constructor. }
  assert (Hfuel : length (ls ++ [final]) < fuel).
  { rewrite length_app. simpl. destruct final; [done|]. simpl in Hlen. lia. }
  assert (Hfits : Forall fits_size_t (ls ++ [final])).
  { apply Forall_forall. intros l Hl. unfold fits_size_t.
    assert (length l <= length text); [|lia].
    rewrite Htext, length_app, length_unlines.
    apply elem_of_app in Hl as [Hl|Hl].
    - assert (length l <= length (concat ls)); [|lia].
      clear -Hl. induction Hl as [l ls|l l' ls _ IH];
        cbn [concat]; rewrite length_app; lia.
    - apply list_elem_of_singleton in Hl as ->. lia. }
  rewrite <- (file_bytes_after_open w1 _ out1 Hn1) in Ht1.
  rewrite <- (file_bytes_after_open w2 _ out2 Hn2) in Ht2.
  destruct (convert_holds_lines w1 csv1 out1 (ls ++ [final]) fuel)
    as (w1' & Hc1 & Hb1 & _); try done.
  { right. exists ls, final. by rewrite Ht1. }
  destruct (convert_holds_lines w2 csv2 out2 (ls ++ [final]) fuel)
    as (w2' & Hc2 & Hb2 & _); try done.
  { left. rewrite Ht2, Htext, unlines_app. simpl.
    by rewrite <- !app_assoc. }
  assert (Hfinalfit : fits_size_t final).
  { apply Forall_app in Hfits as [_ Hfits].
    by apply Forall_cons in Hfits as [? _]. }
  exists w1', w2', ls, final. repeat split; try done.
  - by rewrite Hb1, Hb2.
  - rewrite Hb1, (written_lines_records _ Hfits).
    clear. induction ls as [|l ls IH]; cbn [app records_of].
    + by rewrite app_nil_r.
    + by rewrite IH, app_assoc.
  - destruct (take_drop_record_of final) as [-> _].
    by rewrite size_t_value_bytes, (to_size_t_fits _ Hfinalfit).
  - by destruct (take_drop_record_of final) as [_ ->].
Qed.

(** * Further properties of the encoder *)

Lemma ofstream_open_world (w : world) (p : string) :
  (ofstream_open w p).1 = true ->
  (ofstream_open w p).2 =
    store w p (mk_file [] (match files w !! p with
                           | Some f => may_read f
                           | None => true
                           end) true).
Proof.
  unfold ofstream_open. destruct (files w !! p) as [f|].
  - destruct (may_write f); simpl; done.
  - destruct (may_create w p); simpl; done.
Qed.

(** The world the encoder returns when both files open, written out in
    full: only the entry of the output file differs from the world
    before. *)
Lemma convert_opened_world (w : world) (csvFile outputFile : string)
    (ls : list (list byte)) (final : list byte) (fuel : nat) :
  ifstream_open w csvFile = true ->
  (ofstream_open w outputFile).1 = true ->
  file_bytes (ofstream_open w outputFile).2 csvFile = unlines ls ++ final ->
  Forall no_newline ls -> no_newline final ->
  length ls + (if final is [] then 0 else 1) < fuel ->
  convertCSVToLengthIndicated fuel w csvFile outputFile =
    Some (mk_world
            (<[outputFile :=
                 mk_file (written_lines ls
                            ++ (if final is [] then [] else written_for final))
                         (match files w !! outputFile with
                          | Some f => may_read f
                          | None => true
                          end) true]> (files w))
            (may_create w) (cerr w)).
Proof.
  intros Hin Hout Htext Hls Hfinal Hf. unfold convertCSVToLengthIndicated.
  pose proof (ofstream_open_world w outputFile Hout) as Hw1.
  destruct (ofstream_open w outputFile) as [o w1]. simpl in Hout, Htext, Hw1.
  subst o. rewrite Hin. cbn [negb orb].
  destruct (convert_loop_lines ls fuel
              (ifstream_of (file_bytes w1 csvFile)) [] [] final)
    as (s' & line' & ->); try done.
  subst w1. unfold ofstream_close, store. cbn [files may_create cerr].
  rewrite lookup_insert_eq. cbn [may_read may_write app].
  by rewrite insert_insert_eq.
Qed.

(** X1. When the same path is given as input and as output and the file
    may be read and written, opening the output empties the file before
    the first line is read: the encoder writes no record, prints no
    message and leaves the file empty. *)
Theorem same_path_empties_file (w : world) (path : string) (fuel : nat) :
  ifstream_open w path = true ->
  (ofstream_open w path).1 = true ->
  0 < fuel ->
  exists w',
    convertCSVToLengthIndicated fuel w path path = Some w' /\
    file_bytes w' path = [] /\
    cerr w' = cerr w /\
    forall q, path ≠ q -> files w' !! q = files w !! q.
Proof.
  intros Hin Hout Hf.
  rewrite (convert_opened_world w path path [] [] fuel); try done.
  - eexists; split; [done|]. unfold file_bytes; cbn [files cerr].
    rewrite lookup_insert_eq. repeat split; [done..|].
    intros q Hq. by rewrite lookup_insert_ne.
  - rewrite (ofstream_open_world _ _ Hout). by rewrite file_bytes_store.
  - unfold no_newline. apply not_elem_of_nil.
Qed.

(** X2. For every input text, whatever its bytes, the encoder with both
    files open and distinct runs to the end once the fuel exceeds the
    length of the text, and more fuel does not change the result.  It
    prints nothing, the output file exists afterwards, and every other
    file, the input included, is as before. *)
Theorem encoder_runs_on_any_text (w : world) (csvFile outputFile : string)
    (fuel : nat) :
  csvFile ≠ outputFile ->
  ifstream_open w csvFile = true ->
  (ofstream_open w outputFile).1 = true ->
  length (file_bytes w csvFile) < fuel ->
  exists w',
    convertCSVToLengthIndicated fuel w csvFile outputFile = Some w' /\
    (forall fuel', length (file_bytes w csvFile) < fuel' ->
       convertCSVToLengthIndicated fuel' w csvFile outputFile = Some w') /\
    cerr w' = cerr w /\
    may_create w' = may_create w /\
    is_Some (files w' !! outputFile) /\
    file_bytes w' csvFile = file_bytes w csvFile /\
    forall q, outputFile ≠ q -> files w' !! q = files w !! q.
Proof.
  intros Hne Hin Hout Hf.
  destruct (text_split (file_bytes w csvFile))
    as (ls & final & Htext & Hls & Hfinal & Hlen).
  assert (Htext' :
    file_bytes (ofstream_open w outputFile).2 csvFile = unlines ls ++ final)
    by (by rewrite file_bytes_after_open).
  assert (Hturns : forall n, length (file_bytes w csvFile) < n ->
                     length ls + (if final is [] then 0 else 1) < n).
  { intros n Hn. destruct final; simpl in Hlen; lia. }
  eexists. split; [|split].
  - apply (convert_opened_world w csvFile outputFile ls final fuel);
      auto.
  - intros fuel' Hf'.
    apply (convert_opened_world w csvFile outputFile ls final fuel');
      auto.
  - cbn [cerr may_create files]. rewrite lookup_insert_eq.
    repeat split; [by eexists | |].
    + unfold file_bytes; cbn [files]. by rewrite lookup_insert_ne.
    + intros q Hq. by rewrite lookup_insert_ne.
Qed.

(** X3. The encoder overwrites: the bytes of the output file after a run
    depend only on the bytes of the input file, not on what the output
    file held before nor on anything else in the world. *)
Theorem output_depends_on_input_only (w1 w2 : world)
    (csv1 out1 csv2 out2 : string) (fuel : nat) :
  csv1 ≠ out1 -> csv2 ≠ out2 ->
  ifstream_open w1 csv1 = true -> (ofstream_open w1 out1).1 = true ->
  ifstream_open w2 csv2 = true -> (ofstream_open w2 out2).1 = true ->
  file_bytes w1 csv1 = file_bytes w2 csv2 ->
  length (file_bytes w1 csv1) < fuel ->
  exists w1' w2',
    convertCSVToLengthIndicated fuel w1 csv1 out1 = Some w1' /\
    convertCSVToLengthIndicated fuel w2 csv2 out2 = Some w2' /\
    file_bytes w1' out1 = file_bytes w2' out2.
Proof.
  intros Hn1 Hn2 Hi1 Ho1 Hi2 Ho2 Hsame Hf.
  destruct (text_split (file_bytes w1 csv1))
    as (ls & final & Htext & Hls & Hfinal & Hlen).
  assert (Hturns : length ls + (if final is [] then 0 else 1) < fuel).
  { destruct final; simpl in Hlen; lia. }
  rewrite (convert_opened_world w1 csv1 out1 ls final fuel); try done;
    [|by rewrite file_bytes_after_open].
  rewrite (convert_opened_world w2 csv2 out2 ls final fuel); try done;
    [|by rewrite file_bytes_after_open, <- Hsame].
  eexists _, _. split; [done|]. split; [done|].
  unfold file_bytes; cbn [files]. by rewrite !lookup_insert_eq.
Qed.

Lemma length_records_of (ls : list (list byte)) :
  length (records_of ls) = sizeof_size_t * length ls + length (concat ls).
Proof.
  induction ls as [|l ls IH]; [simpl; lia|].
  cbn [records_of concat length]. unfold record_of at 1.
  rewrite !length_app, length_size_t_bytes, IH. lia.
Qed.

(** X4. For a text of newline-terminated lines the output file has one
    length field per line and loses one newline per line: its size plus
    the number of lines is the size of the text plus the number of lines
    times [sizeof(size_t)]. *)
Theorem output_size (w : world) (csvFile outputFile : string)
    (lines : list (list byte)) (fuel : nat) :
  csvFile ≠ outputFile ->
  ifstream_open w csvFile = true ->
  (ofstream_open w outputFile).1 = true ->
  file_bytes w csvFile = unlines lines ->
  Forall no_newline lines -> Forall fits_size_t lines ->
  length lines < fuel ->
  exists w',
    convertCSVToLengthIndicated fuel w csvFile outputFile = Some w' /\
    length (file_bytes w' outputFile) + length lines =
      length (file_bytes w csvFile) + sizeof_size_t * length lines.
Proof.
  intros Hne Hin Hout Htext Hnl Hfit Hf.
  destruct (convert_holds_lines w csvFile outputFile lines fuel)
    as (w' & Hconv & Hbytes & _); try done.
  { left. by rewrite file_bytes_after_open. }
  exists w'. split; [done|].
  rewrite Hbytes, (written_lines_records _ Hfit), Htext.
  rewrite length_records_of, length_unlines. lia.
Qed.

Lemma le_bytes_zero (n : nat) : le_bytes n 0 = replicate n nul.
Proof.
  induction n as [|n IH]; [done|]. cbn [le_bytes replicate].
  change (0 / 256)%N with 0%N. by rewrite IH.
Qed.

Lemma rev_replicate {A : Type} (n : nat) (x : A) :
  rev (replicate n x) = replicate n x.
Proof.
  induction n as [|n IH]; [done|]. cbn [replicate rev].
  by rewrite IH, <- replicate_S_end.
Qed.

Lemma size_t_bytes_zero : size_t_bytes 0 = replicate sizeof_size_t nul.
Proof.
  unfold size_t_bytes. rewrite le_bytes_zero.
  destruct big_endian; [apply rev_replicate|done].
Qed.

Lemma fits_size_t_nil : fits_size_t [].
Proof.
  unfold fits_size_t, size_t_modulus. simpl.
  apply N.neq_0_lt_0, N.pow_nonzero. lia.
Qed.

(** X5. Blank lines are kept: a text of [n] newlines and nothing else is
    encoded as [n] records of length zero, that is [n] times
    [sizeof(size_t)] NUL bytes. *)
Theorem blank_lines_are_records (w : world) (csvFile outputFile : string)
    (n fuel : nat) :
  csvFile ≠ outputFile ->
  ifstream_open w csvFile = true ->
  (ofstream_open w outputFile).1 = true ->
  file_bytes w csvFile = replicate n newline ->
  n < fuel ->
  exists w',
    convertCSVToLengthIndicated fuel w csvFile outputFile = Some w' /\
    file_bytes w' outputFile = replicate (n * sizeof_size_t) nul.
Proof.
  intros Hne Hin Hout Htext Hf.
  assert (Hunl : unlines (replicate n []) = replicate n newline).
  { clear. induction n as [|n IH]; [done|]. cbn [replicate unlines app].
    by rewrite IH. }
  assert (Hfit : Forall fits_size_t (replicate n [])).
  { apply Forall_replicate, fits_size_t_nil. }
  destruct (convert_holds_lines w csvFile outputFile (replicate n []) fuel)
    as (w' & Hconv & Hbytes & _); try done.
  { left. by rewrite file_bytes_after_open, Hunl. }
  { apply Forall_replicate. unfold no_newline. apply not_elem_of_nil. }
  { by rewrite length_replicate. }
  exists w'. split; [done|].
  rewrite Hbytes, (written_lines_records _ Hfit). clear.
  induction n as [|n IH]; [done|]. cbn [replicate records_of].
  rewrite IH. unfold record_of. cbn [length]. rewrite app_nil_r.
  change (N.of_nat 0) with 0%N.
  rewrite size_t_bytes_zero, <- replicate_add. done.
Qed.

Lemma records_of_inj (ls1 : list (list byte)) :
  forall ls2 : list (list byte),
    0 < sizeof_size_t ->
    Forall fits_size_t ls1 -> Forall fits_size_t ls2 ->
    records_of ls1 = records_of ls2 -> ls1 = ls2.
Proof.
  induction ls1 as [|l1 ls1 IH]; intros [|l2 ls2] HW H1 H2 Heq.
  - done.
  - apply (f_equal length) in Heq. cbn [records_of] in Heq.
    unfold record_of in Heq.
    rewrite !length_app, length_size_t_bytes in Heq. simpl in Heq. lia.
  - apply (f_equal length) in Heq. cbn [records_of] in Heq.
    unfold record_of in Heq.
    rewrite !length_app, length_size_t_bytes in Heq. simpl in Heq. lia.
  - apply Forall_cons in H1 as [Hl1 H1]. apply Forall_cons in H2 as [Hl2 H2].
    cbn [records_of] in Heq. unfold record_of in Heq.
    rewrite <- !app_assoc in Heq.
    apply app_inj_1 in Heq as [Hfield Hrest];
      [|by rewrite !length_size_t_bytes].
    assert (Hlen : length l1 = length l2).
    { apply (f_equal size_t_value) in Hfield.
      rewrite !size_t_value_bytes in Hfield.
      rewrite (to_size_t_fits _ Hl1), (to_size_t_fits _ Hl2) in Hfield.
      lia. }
    apply app_inj_1 in Hrest as [-> Hrest]; [|done].
    f_equal. by apply IH.
Qed.

(** X6. The encoding is injective on lines: when two texts are encoded
    to the same bytes, they hold the same lines. *)
Theorem encoding_injective (w1 w2 : world)
    (csv1 out1 csv2 out2 : string) (lines1 lines2 : list (list byte))
    (fuel : nat) (w1' w2' : world) :
  0 < sizeof_size_t ->
  csv1 ≠ out1 -> csv2 ≠ out2 ->
  ifstream_open w1 csv1 = true -> (ofstream_open w1 out1).1 = true ->
  ifstream_open w2 csv2 = true -> (ofstream_open w2 out2).1 = true ->
  holds_lines (file_bytes w1 csv1) lines1 ->
  holds_lines (file_bytes w2 csv2) lines2 ->
  Forall no_newline lines1 -> Forall fits_size_t lines1 ->
  Forall no_newline lines2 -> Forall fits_size_t lines2 ->
  length lines1 < fuel -> length lines2 < fuel ->
  convertCSVToLengthIndicated fuel w1 csv1 out1 = Some w1' ->
  convertCSVToLengthIndicated fuel w2 csv2 out2 = Some w2' ->
  file_bytes w1' out1 = file_bytes w2' out2 ->
  lines1 = lines2.
Proof.
  intros HW Hn1 Hn2 Hi1 Ho1 Hi2 Ho2 Ht1 Ht2 Hnl1 Hfit1 Hnl2 Hfit2
         Hf1 Hf2 Hc1 Hc2 Hsame.
  destruct (convert_holds_lines w1 csv1 out1 lines1 fuel)
    as (v1 & Hv1 & Hb1 & _); try done.
  { by rewrite file_bytes_after_open. }
  destruct (convert_holds_lines w2 csv2 out2 lines2 fuel)
    as (v2 & Hv2 & Hb2 & _); try done.
  { by rewrite file_bytes_after_open. }
  rewrite Hc1 in Hv1. rewrite Hc2 in Hv2.
  injection Hv1 as <-. injection Hv2 as <-.
  rewrite Hb1, Hb2, !written_lines_records in Hsame by done.
  by apply records_of_inj.
Qed.

Lemma terminated_text_split (ls : list (list byte)) (final : list byte) :
  no_newline final ->
  last (unlines ls ++ final) = Some newline -> final = [].
Proof.
  intros Hfinal Hlast. destruct final as [|c final]; [done|].
  rewrite last_app in Hlast.
  destruct (last (c :: final)) as [x|] eqn:E.
  - injection Hlast as ->. apply last_Some_elem_of in E. by destruct Hfinal.
  - by apply last_None in E.
Qed.

(** X7. Encoding composes with concatenation: when a first text is empty
    or ends with a newline, the output for the first text followed by a
    second text is the output for the first followed by the output for
    the second. *)
Theorem encoding_of_concatenation (w1 w2 w3 : world)
    (csv1 out1 csv2 out2 csv3 out3 : string) (fuel : nat) :
  file_bytes w1 csv1 = [] \/ last (file_bytes w1 csv1) = Some newline ->
  file_bytes w3 csv3 = file_bytes w1 csv1 ++ file_bytes w2 csv2 ->
  csv1 ≠ out1 -> csv2 ≠ out2 -> csv3 ≠ out3 ->
  ifstream_open w1 csv1 = true -> (ofstream_open w1 out1).1 = true ->
  ifstream_open w2 csv2 = true -> (ofstream_open w2 out2).1 = true ->
  ifstream_open w3 csv3 = true -> (ofstream_open w3 out3).1 = true ->
  length (file_bytes w3 csv3) < fuel ->
  exists w1' w2' w3',
    convertCSVToLengthIndicated fuel w1 csv1 out1 = Some w1' /\
    convertCSVToLengthIndicated fuel w2 csv2 out2 = Some w2' /\
    convertCSVToLengthIndicated fuel w3 csv3 out3 = Some w3' /\
    file_bytes w3' out3 = file_bytes w1' out1 ++ file_bytes w2' out2.
Proof.
  intros Hend H3 Hn1 Hn2 Hn3 Hi1 Ho1 Hi2 Ho2 Hi3 Ho3 Hf.
  destruct (text_split (file_bytes w1 csv1))
    as (ls1 & final1 & Ht1 & Hls1 & Hfinal1 & Hlen1).
  destruct (text_split (file_bytes w2 csv2))
    as (ls2 & final2 & Ht2 & Hls2 & Hfinal2 & Hlen2).
  assert (final1 = []) as ->.
  { destruct Hend as [Hnil|Hlast].
    - rewrite Hnil in Ht1. symmetry in Ht1.
      by apply app_eq_nil in Ht1 as [_ ?].
    - rewrite Ht1 in Hlast. by apply (terminated_text_split ls1). }
  rewrite app_nil_r in Ht1. simpl in Hlen1.
  rewrite H3, length_app in Hf.
  assert (Ht3 : file_bytes w3 csv3 = unlines (ls1 ++ ls2) ++ final2)
    by (by rewrite H3, Ht1, Ht2, unlines_app, app_assoc).
  assert (Hfinal2' : (if final2 is [] then 0 else 1) <= length final2)
    by (destruct final2; simpl; lia).
  rewrite (convert_opened_world w1 csv1 out1 ls1 [] fuel); try done;
    [|by rewrite file_bytes_after_open, app_nil_r|simpl; lia].
  rewrite (convert_opened_world w2 csv2 out2 ls2 final2 fuel); try done;
    [|by rewrite file_bytes_after_open|lia].
  rewrite (convert_opened_world w3 csv3 out3 (ls1 ++ ls2) final2 fuel);
    try done;
    [|by rewrite file_bytes_after_open
     |by apply Forall_app|rewrite length_app; lia].
  eexists _, _, _. repeat split.
  unfold file_bytes; cbn [files]. rewrite !lookup_insert_eq. cbn [bytes].
  by rewrite written_lines_app, app_nil_r, app_assoc.
Qed.

(** X8. Running the encoder a second time with the same paths changes
    nothing: the world after the second run is the world after the
    first. *)
Theorem encoder_idempotent (w w' : world) (csvFile outputFile : string)
    (fuel : nat) :
  csvFile ≠ outputFile ->
  ifstream_open w csvFile = true ->
  (ofstream_open w outputFile).1 = true ->
  length (file_bytes w csvFile) < fuel ->
  convertCSVToLengthIndicated fuel w csvFile outputFile = Some w' ->
  convertCSVToLengthIndicated fuel w' csvFile outputFile = Some w'.
Proof.
  intros Hne Hin Hout Hf Hconv.
  destruct (text_split (file_bytes w csvFile))
    as (ls & final & Htext & Hls & Hfinal & Hlen).
  assert (Hturns : length ls + (if final is [] then 0 else 1) < fuel).
  { destruct final; simpl in Hlen; lia. }
  rewrite (convert_opened_world w csvFile outputFile ls final fuel)
    in Hconv; try done; [|by rewrite file_bytes_after_open].
  injection Hconv as <-.
  set (f' := mk_file _ _ _).
  set (w' := mk_world _ _ _).
  assert (Hlook : files w' !! outputFile = Some f')
    by (subst w'; cbn [files]; by rewrite lookup_insert_eq).
  assert (Hout' : (ofstream_open w' outputFile).1 = true)
    by (unfold ofstream_open; rewrite Hlook; done).
  rewrite (convert_opened_world w' csvFile outputFile ls final fuel);
    try done.
  - rewrite Hlook. subst w' f'. cbn [files may_create cerr may_read].
    by rewrite insert_insert_eq.
  - unfold ifstream_open in *. subst w'. cbn [files].
    by rewrite lookup_insert_ne.
  - rewrite file_bytes_after_open by done. rewrite <- Htext.
    unfold file_bytes. subst w'. cbn [files]. by rewrite lookup_insert_ne.
Qed.

(** * Further properties of the decoder *)

(** What [read] keeps whatever the stream and the count: the bytes of
    the file, a position that does not go back nor past the end of the
    file, [badbit] as it was, and the flags that were set. *)
Lemma istream_read_keeps (s : ifstream) (buf : list byte) (n : nat) :
  let s' := (istream_read s buf n).2 in
  content s' = content s /\
  gpos s <= gpos s' /\
  gpos s' <= max (gpos s) (length (content s)) /\
  badbit (rdstate s') = badbit (rdstate s) /\
  (failbit (rdstate s) = true -> failbit (rdstate s') = true) /\
  (eofbit (rdstate s) = true -> eofbit (rdstate s') = true).
Proof.
  unfold istream_read. destruct (good s) eqn:Hg.
  - set (k := length (take n (unread s))).
    assert (Hk : gpos s + k <= max (gpos s) (length (content s))).
    { subst k. unfold unread. rewrite length_take, length_drop. lia. }
    rewrite (good_rdstate _ Hg).
    destruct (k =? n); cbn; repeat split; try done; lia.
  - cbn. rewrite !orb_false_r. repeat split; try done; try lia.
Qed.

(** X9. Whatever the stream and the indeterminate value, and whether the
    call returns or throws, a call of the decoder leaves the bytes of the
    file as they are, moves the position forward only and never past the
    end of the file, never changes [badbit], and never clears [failbit]
    or [eofbit]. *)
Theorem decoder_keeps_stream (indet : N) (s : ifstream) :
  let s' := stream_of (readLengthIndicatedRecord indet s) in
  content s' = content s /\
  gpos s <= gpos s' /\
  gpos s' <= max (gpos s) (length (content s)) /\
  badbit (rdstate s') = badbit (rdstate s) /\
  (failbit (rdstate s) = true -> failbit (rdstate s') = true) /\
  (eofbit (rdstate s) = true -> eofbit (rdstate s') = true).
Proof.
  unfold readLengthIndicatedRecord.
  pose proof (istream_read_keeps s (size_t_bytes indet) sizeof_size_t)
    as H1.
  destruct (istream_read s (size_t_bytes indet) sizeof_size_t)
    as [repr s1]. cbn [snd] in H1.
  destruct (string_fill (size_t_value repr) nul) as [e|record];
    [exact H1|].
  pose proof (istream_read_keeps s1 record (N.to_nat (size_t_value repr)))
    as H2.
  destruct (istream_read s1 record (N.to_nat (size_t_value repr)))
    as [record' s2]. cbn [snd stream_of] in *.
  cbn zeta in *.
  destruct H1 as (Hc1 & Hp1 & Hq1 & Hb1 & Hf1 & He1).
  destruct H2 as (Hc2 & Hp2 & Hq2 & Hb2 & Hf2 & He2).
  rewrite Hc1 in Hc2, Hq2.
  repeat split; [congruence | lia | lia | congruence | auto | auto].
Qed.

Lemma ios_or_twice (a f : iostate) : ios_or (ios_or a f) f = ios_or a f.
Proof.
  destruct a as [[] [] []], f as [[] [] []]; reflexivity.
Qed.

(** X10. On a stream that is not good the decoder consumes nothing: the
    position and the bytes stay and the stream is failed afterwards.
    [recordLength] keeps its indeterminate value: when a string of that
    length can be constructed the call returns it, all NUL bytes, and
    when it cannot the call throws. *)
Theorem decoder_on_failed_stream (indet : N) (s : ifstream) :
  good s = false ->
  readLengthIndicatedRecord indet s =
    match string_fill (to_size_t indet) nul with
    | inl e =>
        Throws e (mk_ifstream (content s) (gpos s)
                    (ios_or (rdstate s) (mk_iostate false true false)) 0)
    | inr record =>
        Returns record
                (mk_ifstream (content s) (gpos s)
                   (ios_or (rdstate s) (mk_iostate false true false)) 0)
    end /\
  fail (stream_of (readLengthIndicatedRecord indet s)) = true.
Proof.
  intros Hg.
  assert (Hcall :
    readLengthIndicatedRecord indet s =
      match string_fill (to_size_t indet) nul with
      | inl e =>
          Throws e (mk_ifstream (content s) (gpos s)
                      (ios_or (rdstate s) (mk_iostate false true false)) 0)
      | inr record =>
          Returns record
                  (mk_ifstream (content s) (gpos s)
                     (ios_or (rdstate s) (mk_iostate false true false)) 0)
      end).
  { unfold readLengthIndicatedRecord.
    rewrite (istream_read_not_good _ _ _ Hg), size_t_value_bytes.
    destruct (string_fill _ nul) as [e|record]; [done|].
    rewrite istream_read_not_good.
    - cbn [content gpos rdstate]. by rewrite ios_or_twice.
    - unfold good; cbn. by rewrite !orb_true_r. }
  split; [exact Hcall|]. rewrite Hcall.
  destruct (string_fill _ nul); unfold fail; cbn; by rewrite !orb_true_r.
Qed.

(** X12. When a good stream holds a whole length field, of value [L],
    the result of the decoder does not depend on the indeterminate value
    of [recordLength].  The call returns exactly when a string of [L]
    bytes can be constructed, and the string that comes back then has
    [L] bytes, whether or not that many bytes follow the field; when it
    throws, the stream is good and just after the field. *)
Theorem decoder_uses_length_field (indet1 indet2 : N) (s : ifstream) :
  good s = true ->
  sizeof_size_t <= length (unread s) ->
  readLengthIndicatedRecord indet1 s = readLengthIndicatedRecord indet2 s /\
  match readLengthIndicatedRecord indet1 s with
  | Returns record s' =>
      constructible (size_t_value (take sizeof_size_t (unread s))) /\
      length record
        = N.to_nat (size_t_value (take sizeof_size_t (unread s)))
  | Throws e s' =>
      ~ constructible (size_t_value (take sizeof_size_t (unread s))) /\
      good s' = true /\ gpos s' = gpos s + sizeof_size_t
  end.
Proof.
  intros Hg Hge. split.
  - rewrite (read_whole_field indet1 s Hg Hge).
    by rewrite (read_whole_field indet2 s Hg Hge).
  - rewrite (read_whole_field indet1 s Hg Hge).
    set (L := size_t_value (take sizeof_size_t (unread s))).
    destruct (string_fill L nul) as [e|record] eqn:Hfill.
    + split; [by apply (string_fill_inl _ _ _ Hfill)|]. by split.
    + apply string_fill_inr in Hfill as [-> Hcon].
      destruct (istream_read _ (replicate (N.to_nat L) nul) (N.to_nat L))
        as [record' s2] eqn:Hread.
      split; [done|].
      apply (f_equal fst) in Hread. cbn [fst] in Hread. subst record'.
      unfold istream_read. destruct (good _); cbn [fst].
      * rewrite length_app, length_drop, length_replicate, length_take. lia.
      * apply length_replicate.
Qed.

(** X13. The caller's loop over whole records followed by a length field
    with too few bytes after it, all of lengths that can be constructed,
    returns the whole records and stops in the state of a clean end of
    the stream: the bytes of the incomplete record are dropped without
    a sign. *)
Theorem truncated_tail_dropped (ls : list (list byte)) (rest : list byte) :
  forall (fuel : nat) (indet : nat -> N) (k : nat) (s : ifstream),
    good s = true ->
    unread s = records_of ls ++ rest ->
    Forall fits_size_t ls -> Forall line_constructible ls ->
    sizeof_size_t <= length rest ->
    length rest
      < sizeof_size_t + N.to_nat (size_t_value (take sizeof_size_t rest)) ->
    constructible (size_t_value (take sizeof_size_t rest)) ->
    length ls < fuel ->
    exists s',
      read_all fuel indet k s = Some (Finished ls s') /\
      rdstate s' = mk_iostate true true false /\
      unread s' = [].
Proof.
  induction ls as [|l ls IH];
    intros fuel indet k s Hg Hu Hls Hcs Hge Hrest Hcon Hf;
    (destruct fuel as [|fuel]; [simpl in Hf; lia|]); cbn [read_all].
  - cbn [records_of app] in Hu.
    rewrite (read_record_truncated (indet k) s Hg) by (by rewrite Hu).
    rewrite Hu, (string_fill_constructible _ _ Hcon). cbn.
    eexists. split; [done|]. split; [done|].
    unfold unread in *. cbn [gpos content].
    rewrite <- drop_drop, Hu. apply drop_all.
  - apply Forall_cons in Hls as [Hl Hls]. apply Forall_cons in Hcs as [Hc Hcs].
    cbn [records_of] in Hu. rewrite <- app_assoc in Hu.
    rewrite (read_record_complete _ _ _ _ Hg Hl Hc Hu).
    set (s1 := mk_ifstream _ _ _ _).
    assert (Hg1 : good s1 = true) by exact Hg.
    rewrite (good_not_fail _ Hg1).
    destruct (IH fuel indet (S k) s1 Hg1) as (s' & -> & Hs');
      [ | done | done | done | done | done | simpl in Hf; lia | eauto].
    subst s1. rewrite <- Nat.add_assoc, unread_advance.
    change (unread (mk_ifstream (content s) (gpos s) (rdstate s)
                                (length l)))
      with (unread s).
    rewrite Hu. unfold record_of. rewrite <- app_assoc, app_assoc.
    apply drop_app_length'.
    rewrite length_app, length_size_t_bytes. done.
Qed.

End Platform.

(** * Across byte orders *)






(** * The claims on concrete inputs

    The platform of the examples has a [size_t] of eight bytes, stored
    low byte first. *)

Lemma open_failure_writes_nothing_witness :
  exists w',
    convertCSVToLengthIndicated 8 false 4 example_world "in.csv" "locked.bin"
      = Some w' /\
    cerr w' = cerr example_world ++ [open_error] /\
    (file_bytes w' "locked.bin" = [] \/ files w' = files example_world) /\
    forall q, "locked.bin"%string ≠ q ->
      files w' !! q = files example_world !! q.
Proof.
  apply (open_failure_writes_nothing 8 false 4 example_world
           "in.csv" "locked.bin").
  right. vm_compute; reflexivity.
Defined.

Lemma open_failure_truncates_output_witness :
  exists w' f,
    convertCSVToLengthIndicated 8 false 4 example_world
                                "missing.csv" "old.bin" = Some w' /\
    files w' !! "old.bin"%string = Some f /\ bytes f = [] /\
    cerr w' = cerr example_world ++ [open_error].
Proof.
  apply (open_failure_truncates_output 8 false 4 example_world
           "missing.csv" "old.bin").
  - vm_compute; reflexivity.
  - vm_compute; reflexivity.
Defined.

Lemma single_record_abc_witness :
  exists w',
    convertCSVToLengthIndicated 8 false 2 example_world "abc.csv" "out.bin"
      = Some w' /\
    length (file_bytes w' "out.bin") = 8 + 5 /\
    size_t_value false (take 8 (file_bytes w' "out.bin")) = 5%N /\
    drop 8 (file_bytes w' "out.bin") = abc_line.
Proof.
  apply (single_record_abc 8 false example_world "abc.csv" "out.bin" 2).
  - lia.
  - discriminate.
  - vm_compute; reflexivity.
  - vm_compute; reflexivity.
  - left. vm_compute; reflexivity.
  - lia.
Defined.

(** C5 as the spec words it fails: the output for the line [a,b,c] has
    thirteen bytes, not eleven, and its length field holds 5, not 3. *)
Lemma single_record_not_three_bytes :
  exists w',
    convertCSVToLengthIndicated 8 false 2 example_world "abc.csv" "out.bin"
      = Some w' /\
    file_bytes w' "out.bin"
      = ["005"; "000"; "000"; "000"; "000"; "000"; "000"; "000";
         "a"; ","; "b"; ","; "c"]%char /\
    ~ single_record_as_claimed 8 false (file_bytes w' "out.bin").
Proof.
  eexists. split; [vm_compute; reflexivity|]. split.
  - vm_compute; reflexivity.
  - intros (Hlen & _). vm_compute in Hlen. discriminate.
Qed.

Lemma line_terminator_stripped_witness :
  exists w',
    convertCSVToLengthIndicated 8 false 4 example_world "in_nl.csv" "out.bin"
      = Some w' /\
    file_bytes w' "out.bin"
      = records_of 8 false [abc_line; []; list_ascii_of_string "x,y"] /\
    Forall (fun l =>
              size_t_value false (take 8 (record_of 8 false l))
                = N.of_nat (length l) /\
              drop 8 (record_of 8 false l) = l /\
              (newline ∉ drop 8 (record_of 8 false l)) /\
              length (record_of 8 false l) = 8 + length l)
           [abc_line; []; list_ascii_of_string "x,y"].
Proof.
  apply (line_terminator_stripped 8 false example_world "in_nl.csv" "out.bin"
           [abc_line; []; list_ascii_of_string "x,y"] 4).
  - discriminate.
  - vm_compute; reflexivity.
  - vm_compute; reflexivity.
  - vm_compute; reflexivity.
  - repeat constructor; apply no_newline_check; reflexivity.
  - repeat constructor; vm_compute; reflexivity.
  - simpl; lia.
Defined.

Lemma roundtrip_lines_witness :
  exists w' s',
    convertCSVToLengthIndicated 8 false 4 example_world "in.csv" "out.bin"
      = Some w' /\
    read_all 8 false example_max_size example_heap 4 (fun _ => all_ones) 0
             (ifstream_of (file_bytes w' "out.bin"))
      = Some (Aborted length_error
                [abc_line; []; list_ascii_of_string "x,y"] s') /\
    eof s' = true /\ fail s' = true /\ unread s' = [].
Proof.
  destruct (roundtrip_lines 8 false example_max_size example_heap
              example_world "in.csv" "out.bin"
              [abc_line; []; list_ascii_of_string "x,y"] 4 4
              (fun _ => all_ones))
    as (w' & s' & Hconv & Hread & Hend).
  - lia.
  - discriminate.
  - vm_compute; reflexivity.
  - vm_compute; reflexivity.
  - right. exists [abc_line; []], (list_ascii_of_string "x,y").
    split; [reflexivity|]. split; [discriminate|]. vm_compute; reflexivity.
  - repeat constructor; apply no_newline_check; reflexivity.
  - repeat constructor; vm_compute; reflexivity.
  - repeat constructor; apply N.leb_le; vm_compute; reflexivity.
  - simpl; lia.
  - simpl; lia.
  - exists w', s'. split; [exact Hconv|]. split; [exact Hread|exact Hend].
Defined.

Lemma read_well_formed_record_witness :
  exists record s',
    readLengthIndicatedRecord 8 false example_max_size example_heap 77
                              (ifstream_of well_formed_bytes)
      = Returns record s' /\
    record = take (N.to_nat 2)
                  (drop 8 (unread (ifstream_of well_formed_bytes))) /\
    N.of_nat (length record) = 2%N /\
    gpos s' = 0 + (8 + N.to_nat 2) /\
    unread s' = drop (8 + N.to_nat 2) (unread (ifstream_of well_formed_bytes)) /\
    good s' = true /\
    gcount s' = N.to_nat 2.
Proof.
  apply (read_well_formed_record 8 false example_max_size example_heap 77 2
           (ifstream_of well_formed_bytes)).
  - reflexivity.
  - vm_compute; reflexivity.
  - vm_compute; lia.
  - split; apply N.leb_le; vm_compute; reflexivity.
Defined.

Lemma truncated_record_padded_witness :
  readLengthIndicatedRecord 8 false example_max_size example_heap 77
                            (ifstream_of length_field_only)
    = Returns ["000"; "000"; "000"; "000"; "000"]%char
              (mk_ifstream length_field_only 8
                           (mk_iostate true true false) 0) /\
  observed (readLengthIndicatedRecord 8 false example_max_size example_heap
              77 (ifstream_of length_field_only))
    = observed (readLengthIndicatedRecord 8 false example_max_size
                  example_heap 5 (ifstream_of [])).
Proof.
  destruct (truncated_record_padded 8 false example_max_size example_heap
              77 5 (ifstream_of length_field_only))
    as (Hcall & _ & Hsame).
  - reflexivity.
  - vm_compute; lia.
  - vm_compute; reflexivity.
  - vm_compute; lia.
  - split; [exact Hcall|]. apply Hsame.
    + split; apply N.leb_le; vm_compute; reflexivity.
    + reflexivity.
Defined.

(** C3 as the spec words it fails: the length field declares five bytes
    and none is left; the call returns five NUL bytes and leaves the
    stream failed at its end with a count of zero, exactly what a call on
    an empty stream does when the indeterminate [recordLength] happens to
    be 5. *)
Lemma truncation_not_reported :
  good (ifstream_of length_field_only) = true /\
  size_t_value false (take 8 length_field_only) = 5%N /\
  length (drop 8 length_field_only) = 0 /\
  readLengthIndicatedRecord 8 false example_max_size example_heap 0
                            (ifstream_of length_field_only)
    = Returns ["000"; "000"; "000"; "000"; "000"]%char
              (mk_ifstream length_field_only 8
                           (mk_iostate true true false) 0) /\
  readLengthIndicatedRecord 8 false example_max_size example_heap 5
                            (ifstream_of [])
    = Returns ["000"; "000"; "000"; "000"; "000"]%char
              (mk_ifstream [] 0 (mk_iostate true true false) 0) /\
  ~ truncation_reported 8 false example_max_size example_heap 0
      (ifstream_of length_field_only).
Proof.
  repeat split; try (vm_compute; reflexivity).
  intros H. apply (H 5%N). vm_compute; reflexivity.
Qed.

Lemma empty_input_empty_output_witness :
  exists w',
    convertCSVToLengthIndicated 8 false 1 example_world
                                "empty.csv" "old.bin" = Some w' /\
    file_bytes w' "old.bin" = [] /\
    is_Some (files w' !! "old.bin"%string) /\
    readLengthIndicatedRecord 8 false example_max_size example_heap all_ones
                              (ifstream_of (file_bytes w' "old.bin"))
      = Throws length_error
               (mk_ifstream [] 0 (mk_iostate true true false) 0).
Proof.
  destruct (empty_input_empty_output 8 false example_max_size example_heap
              example_world "empty.csv" "old.bin" 1 all_ones)
    as (w' & Hconv & Hbytes & Hex & Hcall).
  - lia.
  - vm_compute; reflexivity.
  - vm_compute; reflexivity.
  - vm_compute; reflexivity.
  - lia.
  - exists w'. split; [exact Hconv|]. split; [exact Hbytes|].
    split; [exact Hex|exact Hcall].
Defined.

Lemma length_field_exhausted_witness :
  fail (stream_of
          (readLengthIndicatedRecord 8 false example_max_size example_heap
             all_ones (ifstream_of (list_ascii_of_string "abc")))) = true /\
  readLengthIndicatedRecord 8 false example_max_size example_heap all_ones
                            (ifstream_of (list_ascii_of_string "abc"))
    = Throws length_error
             (mk_ifstream (list_ascii_of_string "abc") 3
                          (mk_iostate true true false) 3).
Proof.
  destruct (length_field_exhausted 8 false example_max_size example_heap
              all_ones (ifstream_of (list_ascii_of_string "abc")))
    as [Hfail Hgood].
  - simpl; lia.
  - split; [exact Hfail|]. exact (proj1 (Hgood eq_refl)).
Defined.

Lemma final_line_without_newline_witness :
  exists w1' w2' ls final,
    convertCSVToLengthIndicated 8 false 12 example_world "in.csv" "a.bin"
      = Some w1' /\
    convertCSVToLengthIndicated 8 false 12 example_world "in_nl.csv" "b.bin"
      = Some w2' /\
    file_bytes w1' "a.bin" = file_bytes w2' "b.bin" /\
    file_bytes example_world "in.csv" = unlines ls ++ final /\
    Forall no_newline ls /\ no_newline final /\ final ≠ [] /\
    file_bytes w1' "a.bin" = records_of 8 false ls ++ record_of 8 false final /\
    size_t_value false (take 8 (record_of 8 false final))
      = N.of_nat (length final) /\
    drop 8 (record_of 8 false final) = final.
Proof.
  apply (final_line_without_newline 8 false example_world example_world
           "in.csv" "a.bin" "in_nl.csv" "b.bin"
           (file_bytes example_world "in.csv") 12).
  - vm_compute; discriminate.
  - vm_compute; discriminate.
  - vm_compute; reflexivity.
  - discriminate.
  - discriminate.
  - vm_compute; reflexivity.
  - vm_compute; reflexivity.
  - vm_compute; reflexivity.
  - vm_compute; reflexivity.
  - reflexivity.
  - vm_compute; reflexivity.
  - vm_compute; lia.
Defined.

(** * The further properties on concrete inputs *)

Lemma same_path_empties_file_witness :
  exists w',
    convertCSVToLengthIndicated 8 false 1 example_world "abc.csv" "abc.csv"
      = Some w' /\
    file_bytes w' "abc.csv" = [] /\
    cerr w' = cerr example_world /\
    forall q, "abc.csv"%string ≠ q ->
      files w' !! q = files example_world !! q.
Proof.
  apply (same_path_empties_file 8 false example_world "abc.csv" 1).
  - vm_compute; reflexivity.
  - vm_compute; reflexivity.
  - lia.
Defined.

Lemma encoder_runs_on_any_text_witness :
  exists w',
    convertCSVToLengthIndicated 8 false 11 example_world "in.csv" "out.bin"
      = Some w' /\
    (forall fuel', length (file_bytes example_world "in.csv") < fuel' ->
       convertCSVToLengthIndicated 8 false fuel' example_world
                                   "in.csv" "out.bin" = Some w') /\
    cerr w' = cerr example_world /\
    may_create w' = may_create example_world /\
    is_Some (files w' !! "out.bin"%string) /\
    file_bytes w' "in.csv" = file_bytes example_world "in.csv" /\
    forall q, "out.bin"%string ≠ q ->
      files w' !! q = files example_world !! q.
Proof.
  apply (encoder_runs_on_any_text 8 false example_world
           "in.csv" "out.bin" 11).
  - discriminate.
  - vm_compute; reflexivity.
  - vm_compute; reflexivity.
  - vm_compute; lia.
Defined.

Lemma output_depends_on_input_only_witness :
  exists w1' w2',
    convertCSVToLengthIndicated 8 false 7 example_world "abc.csv" "old.bin"
      = Some w1' /\
    convertCSVToLengthIndicated 8 false 7 example_world "abc.csv" "new.bin"
      = Some w2' /\
    file_bytes w1' "old.bin" = file_bytes w2' "new.bin".
Proof.
  apply (output_depends_on_input_only 8 false example_world example_world
           "abc.csv" "old.bin" "abc.csv" "new.bin" 7).
  - discriminate.
  - discriminate.
  - vm_compute; reflexivity.
  - vm_compute; reflexivity.
  - vm_compute; reflexivity.
  - vm_compute; reflexivity.
  - reflexivity.
  - vm_compute; lia.
Defined.

Lemma output_size_witness :
  exists w',
    convertCSVToLengthIndicated 8 false 4 example_world "in_nl.csv" "out.bin"
      = Some w' /\
    length (file_bytes w' "out.bin")
      + length [abc_line; []; list_ascii_of_string "x,y"] =
      length (file_bytes example_world "in_nl.csv")
      + 8 * length [abc_line; []; list_ascii_of_string "x,y"].
Proof.
  apply (output_size 8 false example_world "in_nl.csv" "out.bin"
           [abc_line; []; list_ascii_of_string "x,y"] 4).
  - discriminate.
  - vm_compute; reflexivity.
  - vm_compute; reflexivity.
  - vm_compute; reflexivity.
  - repeat constructor; apply no_newline_check; reflexivity.
  - repeat constructor; vm_compute; reflexivity.
  - simpl; lia.
Defined.

Lemma blank_lines_are_records_witness :
  exists w',
    convertCSVToLengthIndicated 8 false 4 second_world "blank.csv" "out.bin"
      = Some w' /\
    file_bytes w' "out.bin" = replicate (3 * 8) nul.
Proof.
  apply (blank_lines_are_records 8 false second_world
           "blank.csv" "out.bin" 3 4).
  - discriminate.
  - vm_compute; reflexivity.
  - vm_compute; reflexivity.
  - vm_compute; reflexivity.
  - lia.
Defined.

Lemma encoding_injective_witness :
  exists w1' w2',
    convertCSVToLengthIndicated 8 false 4 example_world "in.csv" "a.bin"
      = Some w1' /\
    convertCSVToLengthIndicated 8 false 4 example_world "in_nl.csv" "b.bin"
      = Some w2' /\
    file_bytes w1' "a.bin" = file_bytes w2' "b.bin" /\
    [abc_line; []; list_ascii_of_string "x,y"]
      = [abc_line; []; list_ascii_of_string "x,y"].
Proof.
  eexists _, _.
  split; [vm_compute; reflexivity|].
  split; [vm_compute; reflexivity|].
  split; [vm_compute; reflexivity|].
  eapply (encoding_injective 8 false example_world example_world
            "in.csv" "a.bin" "in_nl.csv" "b.bin"
            [abc_line; []; list_ascii_of_string "x,y"]
            [abc_line; []; list_ascii_of_string "x,y"] 4).
  - lia.
  - discriminate.
  - discriminate.
  - vm_compute; reflexivity.
  - vm_compute; reflexivity.
  - vm_compute; reflexivity.
  - vm_compute; reflexivity.
  - right. exists [abc_line; []], (list_ascii_of_string "x,y").
    split; [reflexivity|]. split; [discriminate|]. vm_compute; reflexivity.
  - left. vm_compute; reflexivity.
  - repeat constructor; apply no_newline_check; reflexivity.
  - repeat constructor; vm_compute; reflexivity.
  - repeat constructor; apply no_newline_check; reflexivity.
  - repeat constructor; vm_compute; reflexivity.
  - simpl; lia.
  - simpl; lia.
  - vm_compute; reflexivity.
  - vm_compute; reflexivity.
  - vm_compute; reflexivity.
Defined.

Lemma encoding_of_concatenation_witness :
  exists w1' w2' w3',
    convertCSVToLengthIndicated 8 false 17 example_world "abc.csv" "a.bin"
      = Some w1' /\
    convertCSVToLengthIndicated 8 false 17 example_world "in.csv" "b.bin"
      = Some w2' /\
    convertCSVToLengthIndicated 8 false 17 second_world "both.csv" "c.bin"
      = Some w3' /\
    file_bytes w3' "c.bin" = file_bytes w1' "a.bin" ++ file_bytes w2' "b.bin".
Proof.
  apply (encoding_of_concatenation 8 false
           example_world example_world second_world
           "abc.csv" "a.bin" "in.csv" "b.bin" "both.csv" "c.bin" 17).
  - right. vm_compute; reflexivity.
  - vm_compute; reflexivity.
  - discriminate.
  - discriminate.
  - discriminate.
  - vm_compute; reflexivity.
  - vm_compute; reflexivity.
  - vm_compute; reflexivity.
  - vm_compute; reflexivity.
  - vm_compute; reflexivity.
  - vm_compute; reflexivity.
  - vm_compute; lia.
Defined.

Lemma encoder_idempotent_witness :
  exists w',
    convertCSVToLengthIndicated 8 false 7 example_world "abc.csv" "old.bin"
      = Some w' /\
    convertCSVToLengthIndicated 8 false 7 w' "abc.csv" "old.bin" = Some w'.
Proof.
  eexists. split; [vm_compute; reflexivity|].
  apply (encoder_idempotent 8 false example_world _ "abc.csv" "old.bin" 7).
  - discriminate.
  - vm_compute; reflexivity.
  - vm_compute; reflexivity.
  - vm_compute; lia.
  - vm_compute; reflexivity.
Defined.


Lemma decoder_on_failed_stream_witness :
  readLengthIndicatedRecord 8 false example_max_size example_heap all_ones
                            failed_stream
    = Throws length_error failed_stream /\
  fail (stream_of
          (readLengthIndicatedRecord 8 false example_max_size example_heap
             all_ones failed_stream)) = true.
Proof.
  apply (decoder_on_failed_stream 8 false example_max_size example_heap
           all_ones failed_stream).
  reflexivity.
Defined.

Lemma decoder_uses_length_field_witness :
  readLengthIndicatedRecord 8 false example_max_size example_heap 0
                            (ifstream_of truncated_bytes)
    = readLengthIndicatedRecord 8 false example_max_size example_heap 99
                                (ifstream_of truncated_bytes) /\
  match readLengthIndicatedRecord 8 false example_max_size example_heap 0
                                  (ifstream_of truncated_bytes) with
  | Returns record s' =>
      constructible example_max_size example_heap
        (size_t_value false (take 8 (unread (ifstream_of truncated_bytes)))) /\
      length record
        = N.to_nat (size_t_value false
                      (take 8 (unread (ifstream_of truncated_bytes))))
  | Throws e s' =>
      ~ constructible example_max_size example_heap
          (size_t_value false
             (take 8 (unread (ifstream_of truncated_bytes)))) /\
      good s' = true /\ gpos s' = gpos (ifstream_of truncated_bytes) + 8
  end.
Proof.
  apply (decoder_uses_length_field 8 false example_max_size example_heap
           0 99 (ifstream_of truncated_bytes)).
  - reflexivity.
  - vm_compute; lia.
Defined.

Lemma truncated_tail_dropped_witness :
  exists s',
    read_all 8 false example_max_size example_heap 2 (fun _ => 0%N) 0
             (ifstream_of
                (records_of 8 false [list_ascii_of_string "ab"]
                 ++ truncated_bytes))
      = Some (Finished [list_ascii_of_string "ab"] s') /\
    rdstate s' = mk_iostate true true false /\
    unread s' = [].
Proof.
  apply (truncated_tail_dropped 8 false example_max_size example_heap
           [list_ascii_of_string "ab"] truncated_bytes 2 (fun _ => 0%N) 0).
  - reflexivity.
  - reflexivity.
  - repeat constructor; vm_compute; reflexivity.
  - repeat constructor; apply N.leb_le; vm_compute; reflexivity.
  - vm_compute; lia.
  - vm_compute; lia.
  - split; apply N.leb_le; vm_compute; reflexivity.
  - simpl; lia.
Defined.

